(** * Batched light updates: the light channel and the batch scheduler

    A shallow embedding of [mpf/core/platform_batch_light_system.py]
    (classes [PlatformBatchLight] and [PlatformBatchLightSystem]) and the
    properties of its scheduling and batching algorithm.

    Modelling choices.
    - Python floats (times in seconds, brightness) are rationals [Q]; integer
      milliseconds and [max_batch_size] are [Z].
    - A light object is a heap cell; a reference to it is its identity
      ([ref]).  [light == last_light] is object identity, [Nat.eqb] on
      references.  The heap is a total map from references to cells.
    - The slots of the scheduler assigned in [__init__] and never assigned
      again form the record [PlatformBatchLightSystem]; the two lists the
      loop mutates form, with the heap, the state [World].
    - [clock.get_time()] is an oracle: the k-th reading of the clock is
      [clock self k]; the state counts the readings made so far.
    - Exceptions are results: calling the [None] callback raises [TypeError],
      a failing write sink raises [SinkError].  The state reached when an
      exception is raised is kept, as in Python.
    - The state carries a trace of the observable events (callback
      invocations, evaluations, write-sink calls), most recent first.
    - The loop is cooperative.  Other tasks run, and call [set_fade], only
      where the loop is suspended: in an awaited call of the write sink and
      in the sleep that ends an iteration.  The [set_fade] calls made during
      the k-th call of the sink are part of what that call returns; those
      made during the sleeps are an argument of [_send_updates].
    - [for light in self.dirty_lights] walks the list by index, as the
      list iterator of Python does, and so meets the lights appended while
      the loop is suspended.  Nothing bounds their number: the walk takes
      a bound [fuel] on its number of steps and raises [OutOfFuel] beyond
      it.
    - [start], [stop] and the slot [update_task], which create and cancel
      the task that runs [_send_updates], are modelled apart from the loop,
      over the tasks created and the cancellations requested ([Tasks]).
    - Left out: the slot [light_system] of a light (there is one
      scheduler); the number of a light, which only the sort key and the
      adjacency test look at. *)

From Stdlib Require Import List ZArith QArith Qround Bool Arith Lia.
From Stdlib Require Import Sorted Permutation.
Import ListNotations.

Local Open Scope Q_scope.
Local Open Scope Z_scope.
Local Open Scope nat_scope.
Local Open Scope list_scope.

(** ** Data model *)

(** Identity of a light object. *)
Definition ref := nat.

(** What a fade callback and an evaluation return:
    [(brightness, fade_ms, done)]. *)
Definition fade_result : Type := Q * Z * bool.

(** [color_and_fade_callback(max_fade_ms, current_time=...)]. *)
Definition Callback : Type := Z -> Q -> fade_result.

(** An entry of a batch handed to the write sink:
    [(light, brightness, common_fade_ms)]. *)
Definition entry : Type := ref * Q * Z.

Definition entry_light (e : entry) : ref := fst (fst e).
Definition entry_brightness (e : entry) : Q := snd (fst e).
Definition entry_fade_ms (e : entry) : Z := snd e.

Record PlatformBatchLight := mkLight {
  get_max_fade_ms : Z;
  _callback : option Callback;
  _last_brightness : option Q
}.

(** [PlatformBatchLight.__init__]: no callback, no cached brightness. *)
Definition light__init__ (max_fade_ms : Z) : PlatformBatchLight :=
  {| get_max_fade_ms := max_fade_ms;
     _callback := None;
     _last_brightness := None |}.

Inductive exn := TypeError | SinkError | OutOfFuel.

Inductive result (A : Type) :=
| Ok (a : A)
| Raise (e : exn).
Arguments Ok {A} a.
Arguments Raise {A} e.

Inductive event :=
| EvCallback (light : ref) (max_fade_ms : Z) (current_time : Q) (r : fade_result)
| EvEvaluate (light : ref) (current_time : Q) (r : fade_result)
| EvUpdate (batch : list entry).

(** A call of [set_fade] made by another task. *)
Definition request : Type := ref * Callback.

(** The slots of the scheduler that [__init__] assigns and nothing assigns
    again.  [clock k] is the k-th reading of the clock.
    [update_callback k batch] is the k-th call of the write sink, awaited:
    [None] when it raises, [Some rs] when it returns, [rs] being the calls of
    [set_fade] that other tasks made while the loop was suspended in it. *)
Record PlatformBatchLightSystem := mkSystem {
  clock : nat -> Q;
  sort_function : ref -> Q;
  is_sequential_function : ref -> ref -> bool;
  update_callback : nat -> list entry -> option (list request);
  update_hz : Q;
  max_batch_size : Z
}.

(** The two lists that the scheduler mutates, the heap of lights, the
    numbers of clock readings and of sink calls made, and the trace. *)
Record World := mkWorld {
  dirty_lights : list ref;
  dirty_schedule : list (Q * ref);
  lights : ref -> PlatformBatchLight;
  clock_reads : nat;
  sink_calls : nat;
  trace : list event
}.

(** [PlatformBatchLightSystem.__init__]: stores its arguments, with an empty
    dirty list and an empty schedule ([update_task], set to [None], is left
    out).  There is no [raise] in it. *)
Definition __init__ (clock : nat -> Q) (sort_function : ref -> Q)
    (is_sequential_function : ref -> ref -> bool)
    (update_callback : nat -> list entry -> option (list request))
    (update_hz : Q) (max_batch_size : Z)
  : result (PlatformBatchLightSystem * (list ref * list (Q * ref))) :=
  Ok (mkSystem clock sort_function is_sequential_function update_callback
               update_hz max_batch_size,
      ([], [])).

(** ** Effects: state, exceptions, trace *)

Definition M (A : Type) : Type := World -> World * result A.

Definition ret {A : Type} (a : A) : M A := fun w => (w, Ok a).

Definition raise {A : Type} (e : exn) : M A := fun w => (w, Raise e).

Definition bind {A B : Type} (m : M A) (k : A -> M B) : M B :=
  fun w =>
    match m w with
    | (w', Ok a) => k a w'
    | (w', Raise e) => (w', Raise e)
    end.

Declare Scope monad_scope.
Delimit Scope monad_scope with monad.
Notation "x <- m ;; k" := (bind m (fun x => k))
  (at level 61, m at next level, right associativity) : monad_scope.
Notation "m ;; k" := (bind m (fun _ => k))
  (at level 61, right associativity) : monad_scope.
Local Open Scope monad_scope.

Definition set_dirty_lights (l : list ref) : M unit :=
  fun w => (mkWorld l (dirty_schedule w) (lights w) (clock_reads w)
                    (sink_calls w) (trace w), Ok tt).

Definition set_dirty_schedule (q : list (Q * ref)) : M unit :=
  fun w => (mkWorld (dirty_lights w) q (lights w) (clock_reads w)
                    (sink_calls w) (trace w), Ok tt).

Definition get_dirty_lights : M (list ref) := fun w => (w, Ok (dirty_lights w)).

Definition get_dirty_schedule : M (list (Q * ref)) :=
  fun w => (w, Ok (dirty_schedule w)).

Definition load (light : ref) : M PlatformBatchLight :=
  fun w => (w, Ok (lights w light)).

Definition store (light : ref) (c : PlatformBatchLight) : M unit :=
  fun w => (mkWorld (dirty_lights w) (dirty_schedule w)
                    (fun r => if Nat.eqb r light then c else lights w r)
                    (clock_reads w) (sink_calls w) (trace w), Ok tt).

Definition log (ev : event) : M unit :=
  fun w => (mkWorld (dirty_lights w) (dirty_schedule w) (lights w)
                    (clock_reads w) (sink_calls w) (ev :: trace w), Ok tt).

(** The events in the order they happened. *)
Definition history (w : World) : list event := rev (trace w).

(** ** PlatformBatchLight *)

(** The test [if self._last_brightness:].  [None] is false and so is the
    float [0.0]; the result is the cached value when the test succeeds. *)
Definition truthy (b : option Q) : option Q :=
  match b with
  | Some q => if Qeq_bool q 0 then None else Some q
  | None => None
  end.

(** [PlatformBatchLightSystem.mark_dirty]. *)
Definition mark_dirty (light : ref) : M unit :=
  l <- get_dirty_lights ;; set_dirty_lights (l ++ [light]).

(** [PlatformBatchLight.set_fade]. *)
Definition set_fade (light : ref) (color_and_fade_callback : Callback) : M unit :=
  mark_dirty light ;;
  c <- load light ;;
  store light (mkLight (get_max_fade_ms c) (Some color_and_fade_callback)
                       (_last_brightness c)) ;;
  c <- load light ;;
  store light (mkLight (get_max_fade_ms c) (_callback c) None).

(** [PlatformBatchLight.get_fade_and_brightness]. *)
Definition get_fade_and_brightness (light : ref) (current_time : Q)
  : M fade_result :=
  c <- load light ;;
  match truthy (_last_brightness c) with
  | Some cached =>
      log (EvEvaluate light current_time (cached, 0%Z, true)) ;;
      ret (cached, 0%Z, true)
  | None =>
      let max_fade_ms := get_max_fade_ms c in
      match _callback c with
      | None => raise TypeError
      | Some cb =>
          let '(brightness, fade_ms, done) := cb max_fade_ms current_time in
          log (EvCallback light max_fade_ms current_time
                          (brightness, fade_ms, done)) ;;
          (if done
           then store light (mkLight (get_max_fade_ms c) (_callback c)
                                     (Some brightness))
           else ret tt) ;;
          log (EvEvaluate light current_time (brightness, fade_ms, done)) ;;
          ret (brightness, fade_ms, done)
      end
  end.

(** The calls of [set_fade] that other tasks make while the loop is
    suspended. *)
Fixpoint do_requests (rs : list request) : M unit :=
  match rs with
  | [] => ret tt
  | (light, cb) :: rs' => set_fade light cb ;; do_requests rs'
  end.

(** ** PlatformBatchLightSystem *)

(** Python's [sorted(l, key=key)]: a stable sort that returns a NEW list and
    leaves [l] as it is. *)
Fixpoint insert_by {A : Type} (key : A -> Q) (x : A) (l : list A) : list A :=
  match l with
  | [] => [x]
  | y :: l' =>
      if Qle_bool (key x) (key y) then x :: l else y :: insert_by key x l'
  end.

Definition sorted {A : Type} (key : A -> Q) (l : list A) : list A :=
  fold_right (insert_by key) [] l.

Definition is_empty {A : Type} (l : list A) : bool :=
  match l with [] => true | _ => false end.

Section Scheduler.

Variable self : PlatformBatchLightSystem.

(** [self.clock.get_time()]. *)
Definition get_time : M Q :=
  fun w => (mkWorld (dirty_lights w) (dirty_schedule w) (lights w)
                    (S (clock_reads w)) (sink_calls w) (trace w),
            Ok (clock self (clock_reads w))).

(** The number of the next call of the sink. *)
Definition next_sink_call : M nat :=
  fun w => (mkWorld (dirty_lights w) (dirty_schedule w) (lights w)
                    (clock_reads w) (S (sink_calls w)) (trace w),
            Ok (sink_calls w)).

(** [await self.update_callback(batch)]: the sink is called; it raises, or
    it returns after the other tasks have made their calls of [set_fade]. *)
Definition call_update_callback (batch : list entry) : M unit :=
  log (EvUpdate batch) ;;
  k <- next_sink_call ;;
  match update_callback self k batch with
  | Some rs => do_requests rs
  | None => raise SinkError
  end.

(** The loop of [_send_update_batch] over the lights that remain, with its
    three local variables. *)
Fixpoint _send_update_batch_loop (sequential_lights : list ref)
    (sequential_brightness_list : list entry) (common_fade_ms : option Z)
    (current_time : Q) : M (list entry) :=
  match sequential_lights with
  | [] => ret sequential_brightness_list
  | light :: rest =>
      r <- get_fade_and_brightness light current_time ;;
      let '(brightness, fade_ms, done) := r in
      (if negb done
       then q <- get_dirty_schedule ;;
            set_dirty_schedule
              (q ++ [((current_time + inject_Z fade_ms / 1000)%Q, light)])
       else ret tt) ;;
      let common_fade_ms :=
        match common_fade_ms with None => fade_ms | Some c => c end in
      if (common_fade_ms =? fade_ms)%Z
         && (Z.of_nat (length sequential_brightness_list)
             <? max_batch_size self)%Z
      then
        _send_update_batch_loop rest
          (sequential_brightness_list ++ [(light, brightness, common_fade_ms)])
          (Some common_fade_ms) current_time
      else
        call_update_callback sequential_brightness_list ;;
        current_time <- get_time ;;
        let common_fade_ms := fade_ms in
        _send_update_batch_loop rest [(light, brightness, common_fade_ms)]
          (Some common_fade_ms) current_time
  end.

(** [PlatformBatchLightSystem._send_update_batch]. *)
Definition _send_update_batch (sequential_lights : list ref) : M unit :=
  current_time <- get_time ;;
  sequential_brightness_list <-
    _send_update_batch_loop sequential_lights [] None current_time ;;
  if negb (is_empty sequential_brightness_list)
  then call_update_callback sequential_brightness_list
  else ret tt.

(** The [while] loop that promotes due entries of the schedule; [q] is
    [self.dirty_schedule] at the test of the loop. *)
Fixpoint promote_due (q : list (Q * ref)) : M unit :=
  match q with
  | [] => ret tt
  | (due, light) :: q' =>
      now <- get_time ;;
      if Qle_bool due now then
        l <- get_dirty_lights ;;
        set_dirty_lights (l ++ [light]) ;;
        set_dirty_schedule q' ;;
        promote_due q'
      else ret tt
  end.

(** The [for] loop of [_send_updates], from the position [i] of its
    iterator in [self.dirty_lights] and with its two local variables; it
    returns the run left open.  The list is read again at each step: it
    may have grown while a flush was suspended in the sink. *)
Fixpoint detect_runs (fuel : nat) (i : nat) (last_light : option ref)
    (sequential_lights : list ref) : M (list ref) :=
  match fuel with
  | 0 => raise OutOfFuel
  | S fuel =>
      dirty <- get_dirty_lights ;;
      match nth_error dirty i with
      | None => ret sequential_lights
      | Some light =>
          if match last_light with Some l => Nat.eqb light l | None => false end
          then detect_runs fuel (S i) last_light sequential_lights
          else
            let last_light := Some light in
            if is_empty sequential_lights then
              detect_runs fuel (S i) last_light [light]
            else if is_sequential_function self (last sequential_lights light)
                                           light
            then detect_runs fuel (S i) last_light (sequential_lights ++ [light])
            else
              _send_update_batch sequential_lights ;;
              detect_runs fuel (S i) last_light [light]
      end
  end.

(** One iteration of the [while True] loop of [_send_updates], up to its
    sleep.  The two calls of [sorted] are in the source, and so is the fact
    that their results are not used. *)
Definition _send_updates_iteration (fuel : nat) : M unit :=
  q <- get_dirty_schedule ;;
  (if negb (is_empty q)
   then let _ := sorted (fun x => (fst x + sort_function self (snd x))%Q) q in
        ret tt
   else ret tt) ;;
  promote_due q ;;
  l <- get_dirty_lights ;;
  (if negb (is_empty l)
   then let _ := sorted (sort_function self) l in ret tt
   else ret tt) ;;
  sequential_lights <- detect_runs fuel 0 None [] ;;
  (if negb (is_empty sequential_lights)
   then _send_update_batch sequential_lights
   else ret tt) ;;
  set_dirty_lights [].

End Scheduler.

(** [PlatformBatchLightSystem._send_updates], cut after as many iterations
    as [requests] has elements: its k-th element holds the [set_fade] calls
    made during the sleep of the k-th iteration.  [fuel] bounds the walk
    of the dirty list in each iteration. *)
Fixpoint _send_updates (self : PlatformBatchLightSystem) (fuel : nat)
    (requests : list (list request)) : M unit :=
  match requests with
  | [] => ret tt
  | rs :: rest =>
      _send_updates_iteration self fuel ;;
      do_requests rs ;;
      _send_updates self fuel rest
  end.

(** ** Specification vocabulary *)

(** [hoare P m Q E]: from a state in [P], [m] ends in [Q] when it returns
    and in [E] when it raises. *)
Definition hoare {A : Type} (P : World -> Prop) (m : M A)
    (Q : A -> World -> Prop) (E : World -> Prop) : Prop :=
  forall w, P w ->
    match m w with
    | (w', Ok a) => Q a w'
    | (w', Raise _) => E w'
    end.

(** A step that leaves the trace as it is keeps what is known of it. *)
Definition trace_stable {A : Type} (m : M A) : Prop :=
  forall w, trace (fst (m w)) = trace w.

(** A computation that only adds events to the trace. *)
Definition trace_grows {A : Type} (m : M A) : Prop :=
  forall w, exists new, trace (fst (m w)) = new ++ trace w.

(** The entry was reported by an evaluation recorded in [tr]. *)
Definition reported (tr : list event) (e : entry) : Prop :=
  exists t d,
    In (EvEvaluate (entry_light e) t (entry_brightness e, entry_fade_ms e, d)) tr.

Definition homogeneous (b : list entry) : Prop :=
  forall e1 e2, In e1 b -> In e2 b -> entry_fade_ms e1 = entry_fade_ms e2.

Section BatchPredicates.

Variable self : PlatformBatchLightSystem.

(** What holds of a batch at the moment it is handed to the sink, [older]
    being the events before the call. *)
Definition good_batch (older : list event) (b : list entry) : Prop :=
  homogeneous b /\ Forall (reported older) b /\
  ((1 <= max_batch_size self)%Z ->
   b <> [] /\ (Z.of_nat (length b) <= max_batch_size self)%Z).

Fixpoint sink_calls_ok (tr : list event) : Prop :=
  match tr with
  | [] => True
  | EvUpdate b :: older => good_batch older b /\ sink_calls_ok older
  | _ :: older => sink_calls_ok older
  end.

(** The loop invariant of [_send_update_batch] on its accumulator. *)
Definition acc_ok (tr : list event) (sbl : list entry) (common : option Z)
  : Prop :=
  Forall (reported tr) sbl /\
  match common with
  | None => sbl = []
  | Some c =>
      Forall (fun e => entry_fade_ms e = c) sbl /\
      ((1 <= max_batch_size self)%Z ->
       sbl <> [] /\ (Z.of_nat (length sbl) <= max_batch_size self)%Z)
  end.

(** The trace is [base], the events recorded before the computation under
    study, extended by events whose sink calls are good and which satisfy
    [P]. *)
Definition inv (base : list event) (P : list event -> Prop) (w : World) : Prop :=
  exists new, trace w = new ++ base /\ sink_calls_ok new /\ P new.

End BatchPredicates.

(** A list in the order of a key. *)
Definition ordered_by {A : Type} (key : A -> Q) (l : list A) : Prop :=
  StronglySorted (fun x y => (key x <= key y)%Q) l.

(** The lights evaluated and the batches written, oldest first, in a trace
    given most recent first. *)
Fixpoint evaluated (tr : list event) : list ref :=
  match tr with
  | [] => []
  | EvEvaluate light _ _ :: older => evaluated older ++ [light]
  | _ :: older => evaluated older
  end.

Fixpoint written (tr : list event) : list (list entry) :=
  match tr with
  | [] => []
  | EvUpdate b :: older => written older ++ [b]
  | _ :: older => written older
  end.

Fixpoint callbacks_invoked (tr : list event) : list (ref * Q) :=
  match tr with
  | [] => []
  | EvCallback light _ t _ :: older => callbacks_invoked older ++ [(light, t)]
  | _ :: older => callbacks_invoked older
  end.

(** The entries that the evaluations recorded in a trace add to the
    schedule, oldest first: one for each evaluation that reported the fade
    incomplete, due when the reported duration has elapsed. *)
Fixpoint scheduled (tr : list event) : list (Q * ref) :=
  match tr with
  | [] => []
  | EvEvaluate light t (_, fade_ms, false) :: older =>
      scheduled older ++ [((t + inject_Z fade_ms / 1000)%Q, light)]
  | _ :: older => scheduled older
  end.

Definition has_callback (w : World) (light : ref) : Prop :=
  _callback (lights w light) <> None.

(** Every light that is dirty or scheduled has a callback: the lights got
    there through [set_fade]. *)
Definition callbacks_set (w : World) : Prop :=
  forall light,
    In light (dirty_lights w) \/ In light (map snd (dirty_schedule w)) ->
    has_callback w light.

Section Progress.

Variable self : PlatformBatchLightSystem.

(** The evaluations recorded in [new] were made at readings of the clock of
    index [kmin] or later. *)
Definition times_from (kmin : nat) (new : list event) : Prop :=
  forall light t r,
    In (EvEvaluate light t r) new -> exists k, kmin <= k /\ t = clock self k.

(** From [w] to [w'] the events [new] happened, the schedule grew by the
    entries of the incomplete evaluations and the dirty list stayed. *)
Record step (kmin : nat) (w w' : World) (new : list event) : Prop := mkStep {
  step_trace : trace w' = new ++ trace w;
  step_schedule : dirty_schedule w' = dirty_schedule w ++ scheduled new;
  step_dirty : dirty_lights w' = dirty_lights w;
  step_reads : clock_reads w <= clock_reads w';
  step_callbacks : forall light, has_callback w light -> has_callback w' light;
  step_times : times_from kmin new
}.

(** What the promotion loop does to a schedule [q]: it moves the first [j]
    entries, each due at the reading of the clock made for it, and stops
    at the end of the schedule or at an entry that is not due. *)
Record promoted (q : list (Q * ref)) (w w' : World) (j : nat) : Prop :=
  mkPromoted {
  promoted_bound : j <= length q;
  promoted_dirty : dirty_lights w' = dirty_lights w ++ map snd (firstn j q);
  promoted_schedule :
    dirty_schedule w' = match j with 0 => dirty_schedule w | _ => skipn j q end;
  promoted_lights : lights w' = lights w;
  promoted_trace : trace w' = trace w;
  promoted_reads : clock_reads w + j <= clock_reads w';
  promoted_read : q <> [] -> clock_reads w < clock_reads w';
  promoted_due :
    forall i due light,
      i < j -> nth_error q i = Some (due, light) ->
      (due <= clock self (clock_reads w + i))%Q;
  promoted_stop :
    forall due light,
      nth_error q j = Some (due, light) ->
      ~ (due <= clock self (clock_reads w + j))%Q
}.

(** What one iteration of the loop does from [w]: it promotes the first
    [j] entries of the schedule, evaluates the dirty and the promoted
    lights, these only, schedules the incomplete ones and empties the
    dirty list. *)
Record ticked (w w' : World) (j : nat) (new : list event) : Prop := mkTicked {
  ticked_bound : j <= length (dirty_schedule w);
  ticked_trace : trace w' = new ++ trace w;
  ticked_dirty : dirty_lights w' = [];
  ticked_schedule :
    dirty_schedule w' = skipn j (dirty_schedule w) ++ scheduled new;
  ticked_evaluated :
    forall light,
      In light (dirty_lights w) \/
      In light (map snd (firstn j (dirty_schedule w))) <->
      In light (evaluated new);
  ticked_times : times_from (clock_reads w + j) new;
  ticked_due :
    forall i due light,
      i < j -> nth_error (dirty_schedule w) i = Some (due, light) ->
      (due <= clock self (clock_reads w + i))%Q;
  ticked_stop :
    forall due light,
      nth_error (dirty_schedule w) j = Some (due, light) ->
      ~ (due <= clock self (clock_reads w + j))%Q;
  ticked_reads : clock_reads w <= clock_reads w';
  ticked_read : dirty_schedule w <> [] -> clock_reads w < clock_reads w';
  ticked_callbacks :
    forall light, has_callback w light -> has_callback w' light
}.

End Progress.

(** The clock never goes back, and passes every time. *)
Definition monotone (clock : nat -> Q) : Prop :=
  forall i j, i <= j -> (clock i <= clock j)%Q.

Definition unbounded (clock : nat -> Q) : Prop :=
  forall q : Q, exists k, (q <= clock k)%Q.

(** The requests of the iterations [0 .. n-1], [requests k] being those
    made during the sleep of iteration [k]. *)
Definition first_requests (requests : nat -> list request) (n : nat)
  : list (list request) :=
  map requests (seq 0 n).

(** ** Vocabulary of the further properties *)

(** The trace is [base] extended by events [new] such that [P] holds of
    [new] and of the schedule. *)
Definition since (base : list event)
    (P : list event -> list (Q * ref) -> Prop) (w : World) : Prop :=
  exists new, trace w = new ++ base /\ P new (dirty_schedule w).

(** A step that changes neither the trace nor the schedule. *)
Definition quiet {A : Type} (m : M A) : Prop :=
  forall w,
    trace (fst (m w)) = trace w /\
    dirty_schedule (fst (m w)) = dirty_schedule w.

(** The events that an evaluation of [light] at [t] returning [r] adds to
    the trace, most recent first: the evaluation, after the call of the
    callback when there was one. *)
Definition evaluation_events (light : ref) (t : Q) (r : fade_result)
    (evs : list event) : Prop :=
  evs = [EvEvaluate light t r] \/
  exists m, evs = [EvEvaluate light t r; EvCallback light m t r].

(** What the evaluations recorded in a trace returned, oldest first, as the
    entries [(light, brightness, fade_ms)] they give rise to. *)
Fixpoint results (tr : list event) : list entry :=
  match tr with
  | [] => []
  | EvEvaluate light _ (brightness, fade_ms, _) :: older =>
      results older ++ [(light, brightness, fade_ms)]
  | _ :: older => results older
  end.

(** Each light of the list is followed by a light sequential to it. *)
Fixpoint chain (self : PlatformBatchLightSystem) (l : list ref) : Prop :=
  match l with
  | a :: (b :: _) as rest =>
      is_sequential_function self a b = true /\ chain self rest
  | _ => True
  end.


(** The callback of the last request made on [light], if any. *)
Fixpoint last_request (light : ref) (rs : list request) : option Callback :=
  match rs with
  | [] => None
  | (l, cb) :: rs' =>
      match last_request light rs' with
      | Some cb' => Some cb'
      | None => if Nat.eqb l light then Some cb else None
      end
  end.

(** Two batches written one after the other by a flush: the first was
    closed because it was full, or because the fade duration changed. *)
Definition closed_for_a_reason (max_batch_size : Z) (b1 b2 : list entry)
  : Prop :=
  (max_batch_size <= Z.of_nat (length b1))%Z \/
  exists e2 rest, b2 = e2 :: rest /\
                  forall e1, In e1 b1 -> entry_fade_ms e1 <> entry_fade_ms e2.

(** Each batch of the list, but the last, was closed for a reason. *)
Fixpoint split_ok (max_batch_size : Z) (bs : list (list entry)) : Prop :=
  match bs with
  | b1 :: (b2 :: _) as rest =>
      closed_for_a_reason max_batch_size b1 b2 /\ split_ok max_batch_size rest
  | _ => True
  end.

(** Evaluations of one light at the times of a list, one after the
    other; the results in order. *)
Fixpoint evaluations (light : ref) (ts : list Q) : M (list fade_result) :=
  match ts with
  | [] => ret []
  | t :: ts' =>
      r <- get_fade_and_brightness light t ;;
      rs <- evaluations light ts' ;;
      ret (r :: rs)
  end.

(** ** The task of the loop *)

(** The tasks of the event loop that run [_send_updates], by the order of
    their creation: the slot [update_task], the number of tasks created so
    far, and the tasks on which [cancel()] was called, latest first. *)
Record Tasks := mkTasks {
  update_task : option nat;
  tasks_created : nat;
  cancel_requests : list nat
}.

(** The slot as [__init__] leaves it, with no task created. *)
Definition no_task : Tasks := mkTasks None 0 [].

(** [PlatformBatchLightSystem.start]: a task is created and put in the
    slot, whatever the slot holds. *)
Definition start (s : Tasks) : Tasks :=
  mkTasks (Some (tasks_created s)) (S (tasks_created s)) (cancel_requests s).

(** [PlatformBatchLightSystem.stop]: the task in the slot, if any, is
    cancelled and the slot emptied. *)
Definition stop (s : Tasks) : Tasks :=
  match update_task s with
  | Some task => mkTasks None (tasks_created s) (task :: cancel_requests s)
  | None => s
  end.

(** Calls of [start] and [stop], made in order. *)
Inductive lifecycle_call := CallStart | CallStop.

Fixpoint lifecycle (calls : list lifecycle_call) (s : Tasks) : Tasks :=
  match calls with
  | [] => s
  | CallStart :: rest => lifecycle rest (start s)
  | CallStop :: rest => lifecycle rest (stop s)
  end.

(** The task in the slot is the last one created and is not cancelled, the
    tasks cancelled were created, and no task is cancelled twice. *)
Definition tasks_ok (s : Tasks) : Prop :=
  (forall task, update_task s = Some task ->
                S task = tasks_created s /\ ~ In task (cancel_requests s)) /\
  (forall task, In task (cancel_requests s) -> task < tasks_created s) /\
  NoDup (cancel_requests s).

(** A task created that is neither in the slot nor cancelled. *)
Definition out_of_reach (task : nat) (s : Tasks) : Prop :=
  task < tasks_created s /\ update_task s <> Some task /\
  ~ In task (cancel_requests s).

(** ** Example configurations *)

(** A callback that always answers the same. *)
Definition cb_const (brightness : Q) (fade_ms : Z) (done : bool) : Callback :=
  fun _ _ => (brightness, fade_ms, done).

(** Lights on a bus: the sort key is the address, two lights are sequential
    when their addresses follow each other, the sink accepts every batch
    without suspending the loop and the k-th reading of the clock is [k]
    seconds. *)
Definition bus (max_batch_size : Z) : PlatformBatchLightSystem :=
  mkSystem (fun k => inject_Z (Z.of_nat k))
           (fun light => inject_Z (Z.of_nat light))
           (fun a b => Nat.eqb (S a) b)
           (fun _ _ => Some [])
           1000%Q
           max_batch_size.

(** The same bus with a sink that suspends the loop: during its first call
    another task asks light 9 to go to full brightness. *)
Definition suspending_bus : PlatformBatchLightSystem :=
  mkSystem (clock (bus 8)) (sort_function (bus 8))
           (is_sequential_function (bus 8))
           (fun k _ => match k with
                       | 0 => Some [(9, cb_const 1 0 true)]
                       | _ => Some []
                       end)
           1000%Q 8.

(** Enough steps for the walks of the dirty list of the examples. *)
Definition some_fuel : nat := 100.

(** Nothing dirty, nothing scheduled, every light as [__init__] leaves it. *)
Definition fresh : World :=
  mkWorld [] [] (fun _ => light__init__ 100) 0 0 [].

Definition after {A : Type} (m : M A) (w : World) : World := fst (m w).

(** Lights 1, 2 and 3 asked to go to full brightness at once, no fade. *)
Definition three_dirty : World :=
  after (set_fade 1 (cb_const 1 0 true) ;;
         set_fade 2 (cb_const 1 0 true) ;;
         set_fade 3 (cb_const 1 0 true)) fresh.

(** Light 2 asked first, then light 1. *)
Definition two_reversed : World :=
  after (set_fade 2 (cb_const 1 0 true) ;;
         set_fade 1 (cb_const 1 0 true)) fresh.

(** Light 1 starts a fade of 10 s and light 2 one of 1 s. *)
Definition two_fading : World :=
  after (set_fade 1 (cb_const 1 10000 false) ;;
         set_fade 2 (cb_const 1 1000 false)) fresh.

(** Light 1 asked to go off at once. *)
Definition switched_off : World :=
  after (set_fade 1 (cb_const 0 0 true)) fresh.

(** [set_fade] on light 1, then on light 2, then on light 1 again. *)
Definition asked_twice : World :=
  after (set_fade 1 (cb_const (1 # 4) 0 true) ;;
         set_fade 2 (cb_const 1 500 false) ;;
         set_fade 1 (cb_const (3 # 4) 500 false)) fresh.

(** [set_fade] twice in a row on light 1. *)
Definition asked_twice_in_a_row : World :=
  after (set_fade 1 (cb_const (1 # 4) 0 true) ;;
         set_fade 1 (cb_const (3 # 4) 500 false)) fresh.

(** Light 1 asked to go to full brightness; lights 1 and 3 asked. *)
Definition one_dirty : World :=
  after (set_fade 1 (cb_const 1 0 true)) fresh.

Definition one_and_three_dirty : World :=
  after (set_fade 1 (cb_const 1 0 true) ;;
         set_fade 3 (cb_const 1 0 true)) fresh.

(** Lights 1 and 2 fading and scheduled, light 3 asked to go on. *)
Definition fading_and_dirty : World :=
  after (set_fade 3 (cb_const 1 0 true))
        (after (_send_updates_iteration (bus 8) some_fuel) two_fading).

(** * Properties *)

(** ** [sorted] sorts *)

Lemma insert_by_permutation {A : Type} (key : A -> Q) (x : A) (l : list A) :
  Permutation (insert_by key x l) (x :: l).
Proof.
  induction l as [|y l IH]; simpl; [reflexivity|].
  destruct (Qle_bool (key x) (key y)); [reflexivity|].
  rewrite IH. apply perm_swap.
Qed.

Lemma sorted_permutation {A : Type} (key : A -> Q) (l : list A) :
  Permutation (sorted key l) l.
Proof.
  induction l as [|x l IH]; simpl; [reflexivity|].
  rewrite insert_by_permutation. apply perm_skip. exact IH.
Qed.

Lemma insert_by_ordered {A : Type} (key : A -> Q) (x : A) (l : list A) :
  ordered_by key l -> ordered_by key (insert_by key x l).
Proof.
  unfold ordered_by. induction l as [|y l IH]; intro H; simpl.
  - constructor; constructor.
  - inversion H as [|? ? Hl Hy]; subst.
    destruct (Qle_bool (key x) (key y)) eqn:E.
    + apply Qle_bool_iff in E. constructor; [exact H|].
      constructor; [exact E|].
      eapply Forall_impl; [|exact Hy]. intros z Hz.
      eapply Qle_trans; eassumption.
    + assert (Hyx : (key y <= key x)%Q).
      { apply Qlt_le_weak, Qnot_le_lt. intro Hle.
        apply Qle_bool_iff in Hle. congruence. }
      constructor; [apply IH; exact Hl|].
      eapply Permutation_Forall;
        [symmetry; apply insert_by_permutation|].
      constructor; assumption.
Qed.

Lemma sorted_ordered {A : Type} (key : A -> Q) (l : list A) :
  ordered_by key (sorted key l).
Proof.
  induction l as [|x l IH]; simpl; [constructor|].
  apply insert_by_ordered. exact IH.
Qed.

(** ** Reasoning rules *)

Lemma hoare_ret {A : Type} (a : A) (P : World -> Prop) (Q : A -> World -> Prop)
    (E : World -> Prop) :
  (forall w, P w -> Q a w) -> hoare P (ret a) Q E.
Proof. intros H w Hw. simpl. auto. Qed.

Lemma hoare_raise {A : Type} (e : exn) (P : World -> Prop)
    (Q : A -> World -> Prop) (E : World -> Prop) :
  (forall w, P w -> E w) -> hoare P (raise e) Q E.
Proof. intros H w Hw. simpl. auto. Qed.

Lemma hoare_bind {A B : Type} (m : M A) (k : A -> M B) (P : World -> Prop)
    (R : A -> World -> Prop) (Q : B -> World -> Prop) (E : World -> Prop) :
  hoare P m R E ->
  (forall a, hoare (R a) (k a) Q E) ->
  hoare P (bind m k) Q E.
Proof.
  intros Hm Hk w Hw. unfold bind.
  specialize (Hm w Hw). destruct (m w) as [w' [a|e]]; auto.
  apply Hk. exact Hm.
Qed.

Lemma hoare_conseq {A : Type} (m : M A) (P P' : World -> Prop)
    (Q Q' : A -> World -> Prop) (E E' : World -> Prop) :
  hoare P' m Q' E' ->
  (forall w, P w -> P' w) ->
  (forall a w, Q' a w -> Q a w) ->
  (forall w, E' w -> E w) ->
  hoare P m Q E.
Proof.
  intros Hm HP HQ HE w Hw. specialize (Hm w (HP w Hw)).
  destruct (m w) as [w' [a|e]]; auto.
Qed.

Lemma hoare_trace_stable {A : Type} (m : M A) (T : list event -> Prop) :
  trace_stable m ->
  hoare (fun w => T (trace w)) m (fun _ w => T (trace w)) (fun w => T (trace w)).
Proof.
  intros Hs w Hw. specialize (Hs w).
  destruct (m w) as [w' [a|e]]; simpl in Hs; rewrite Hs; exact Hw.
Qed.

Lemma trace_stable_bind {A B : Type} (m : M A) (k : A -> M B) :
  trace_stable m -> (forall a, trace_stable (k a)) -> trace_stable (bind m k).
Proof.
  intros Hm Hk w. unfold bind. specialize (Hm w).
  destruct (m w) as [w' [a|e]]; simpl in *; [|exact Hm].
  rewrite Hk. exact Hm.
Qed.

Lemma trace_stable_ret {A : Type} (a : A) : trace_stable (ret a).
Proof. intro w. reflexivity. Qed.

Lemma trace_stable_set_dirty_lights l : trace_stable (set_dirty_lights l).
Proof. intro w. reflexivity. Qed.

Lemma trace_stable_set_dirty_schedule q : trace_stable (set_dirty_schedule q).
Proof. intro w. reflexivity. Qed.

Lemma trace_stable_get_dirty_lights : trace_stable get_dirty_lights.
Proof. intro w. reflexivity. Qed.

Lemma trace_stable_get_dirty_schedule : trace_stable get_dirty_schedule.
Proof. intro w. reflexivity. Qed.

Lemma trace_stable_get_time self : trace_stable (get_time self).
Proof. intro w. reflexivity. Qed.

Lemma trace_stable_next_sink_call : trace_stable next_sink_call.
Proof. intro w. reflexivity. Qed.

Lemma trace_stable_mark_dirty light : trace_stable (mark_dirty light).
Proof. intro w. reflexivity. Qed.

Lemma trace_stable_set_fade light cb : trace_stable (set_fade light cb).
Proof. intro w. reflexivity. Qed.

Lemma trace_stable_do_requests rs : trace_stable (do_requests rs).
Proof.
  induction rs as [|[light cb] rs IH]; intro w; [reflexivity|].
  simpl. apply trace_stable_bind; [apply trace_stable_set_fade|auto].
Qed.

Lemma trace_stable_promote_due self q : trace_stable (promote_due self q).
Proof.
  induction q as [|[due light] q IH]; [apply trace_stable_ret|].
  simpl. apply trace_stable_bind; [apply trace_stable_get_time|].
  intro now. destruct (Qle_bool due now); [|apply trace_stable_ret].
  apply trace_stable_bind; [apply trace_stable_get_dirty_lights|]. intro l.
  apply trace_stable_bind; [apply trace_stable_set_dirty_lights|]. intros _.
  apply trace_stable_bind; [apply trace_stable_set_dirty_schedule|]. intros _.
  exact IH.
Qed.

(** ** What an evaluation does to the trace *)

Lemma get_fade_and_brightness_trace light current_time w :
  match get_fade_and_brightness light current_time w with
  | (w', Ok r) =>
      trace w' = EvEvaluate light current_time r :: trace w \/
      trace w' = EvEvaluate light current_time r
                 :: EvCallback light (get_max_fade_ms (lights w light))
                               current_time r
                 :: trace w
  | (w', Raise _) => trace w' = trace w
  end.
Proof.
  unfold get_fade_and_brightness, bind, load.
  destruct (truthy (_last_brightness (lights w light))) as [cached|].
  - simpl. left. reflexivity.
  - destruct (_callback (lights w light)) as [cb|]; [|reflexivity].
    destruct (cb (get_max_fade_ms (lights w light)) current_time)
      as [[brightness fade_ms] done].
    destruct done; simpl; right; reflexivity.
Qed.

Lemma reported_cons tr ev e : reported tr e -> reported (ev :: tr) e.
Proof. intros (t & d & H). exists t, d. right. exact H. Qed.

Lemma Forall_reported_cons tr ev b :
  Forall (reported tr) b -> Forall (reported (ev :: tr)) b.
Proof. intro H. eapply Forall_impl; [|exact H]. intros e. apply reported_cons. Qed.

Lemma trace_grows_bind {A B : Type} (m : M A) (k : A -> M B) :
  trace_grows m -> (forall a, trace_grows (k a)) -> trace_grows (bind m k).
Proof.
  intros Hm Hk w. unfold bind. destruct (Hm w) as [new1 H1].
  destruct (m w) as [w' [a|e]]; simpl in *.
  - destruct (Hk a w') as [new2 H2]. exists (new2 ++ new1).
    rewrite H2, H1. apply app_assoc.
  - exists new1. exact H1.
Qed.

Lemma trace_stable_grows {A : Type} (m : M A) : trace_stable m -> trace_grows m.
Proof. intros H w. exists []. apply H. Qed.

Lemma trace_grows_evaluate light current_time :
  trace_grows (get_fade_and_brightness light current_time).
Proof.
  intro w. pose proof (get_fade_and_brightness_trace light current_time w) as H.
  destruct (get_fade_and_brightness light current_time w) as [w' [r|e]]; simpl.
  - destruct H as [H|H]; rewrite H; [eexists [_]|eexists [_; _]]; reflexivity.
  - exists []. exact H.
Qed.

(** A call of the sink adds the batch to the trace, whatever it returns. *)
Lemma call_update_callback_trace self b w :
  trace (fst (call_update_callback self b w)) = EvUpdate b :: trace w.
Proof.
  unfold call_update_callback, bind, log, next_sink_call. simpl.
  destruct (update_callback self (sink_calls w) b) as [rs|]; [|reflexivity].
  match goal with
  | |- context [do_requests rs ?w1] =>
      pose proof (trace_stable_do_requests rs w1) as H;
      destruct (do_requests rs w1) as [w2 [u|e]]
  end; exact H.
Qed.

Lemma trace_grows_call_update_callback self b :
  trace_grows (call_update_callback self b).
Proof.
  intro w. exists [EvUpdate b]. apply call_update_callback_trace.
Qed.

Lemma trace_grows_send_update_batch_loop self sequential_lights :
  forall sbl common current_time,
    trace_grows (_send_update_batch_loop self sequential_lights sbl common
                                         current_time).
Proof.
  induction sequential_lights as [|light rest IH]; intros sbl common current_time.
  - apply trace_stable_grows, trace_stable_ret.
  - simpl. apply trace_grows_bind; [apply trace_grows_evaluate|].
    intros [[brightness fade_ms] done].
    apply trace_grows_bind.
    { apply trace_stable_grows. destruct done; simpl; [apply trace_stable_ret|].
      apply trace_stable_bind; [apply trace_stable_get_dirty_schedule|].
      intro q. apply trace_stable_set_dirty_schedule. }
    intros ?.
    match goal with |- trace_grows (if ?c then _ else _) => destruct c end.
    + apply IH.
    + apply trace_grows_bind; [apply trace_grows_call_update_callback|].
      intros ?.
      apply trace_grows_bind;
        [apply trace_stable_grows, trace_stable_get_time|].
      intros now. apply IH.
Qed.

Lemma trace_grows_send_update_batch self sequential_lights :
  trace_grows (_send_update_batch self sequential_lights).
Proof.
  unfold _send_update_batch.
  apply trace_grows_bind; [apply trace_stable_grows, trace_stable_get_time|].
  intros current_time.
  apply trace_grows_bind; [apply trace_grows_send_update_batch_loop|].
  intros out. destruct (negb (is_empty out)).
  - apply trace_grows_call_update_callback.
  - apply trace_stable_grows, trace_stable_ret.
Qed.

Section BatchInvariant.

Variable self : PlatformBatchLightSystem.

(** The events recorded before the computation under study. *)
Variable base : list event.

Local Abbreviation good_batch := (good_batch self).
Local Abbreviation sink_calls_ok := (sink_calls_ok self).
Local Abbreviation acc_ok := (acc_ok self).
Local Abbreviation inv := (inv self base).

Lemma inv_weaken (P P' : list event -> Prop) w :
  (forall new, sink_calls_ok new -> P new -> P' new) -> inv P w -> inv P' w.
Proof. intros H (new & Ht & Hs & HP). exists new. auto. Qed.

Lemma hoare_inv_stable {A : Type} (m : M A) (P : list event -> Prop) :
  trace_stable m -> hoare (inv P) m (fun _ => inv P) (inv (fun _ => True)).
Proof.
  intro Hst. eapply hoare_conseq.
  - apply (hoare_trace_stable m
             (fun tr => exists new, tr = new ++ base /\ sink_calls_ok new /\ P new)).
    exact Hst.
  - intros w H. exact H.
  - intros ? w H. exact H.
  - intros w H. eapply inv_weaken; [|exact H]. auto.
Qed.

Lemma Forall_fade_homogeneous c b :
  Forall (fun e => entry_fade_ms e = c) b -> homogeneous b.
Proof.
  intros H e1 e2 H1 H2. rewrite Forall_forall in H.
  rewrite (H e1 H1), (H e2 H2). reflexivity.
Qed.

Lemma acc_ok_homogeneous tr sbl common : acc_ok tr sbl common -> homogeneous sbl.
Proof.
  intros [_ H]. destruct common as [c|].
  - eapply Forall_fade_homogeneous. apply H.
  - subst. intros e1 e2 [].
Qed.

Lemma acc_ok_cons ev tr sbl common :
  acc_ok tr sbl common -> acc_ok (ev :: tr) sbl common.
Proof. intros [Hr Hc]. split; [apply Forall_reported_cons; exact Hr|exact Hc]. Qed.

Lemma hoare_evaluate light current_time sbl common :
  hoare (inv (fun new => acc_ok new sbl common))
        (get_fade_and_brightness light current_time)
        (fun r => inv (fun new => acc_ok new sbl common /\
                                  reported new (light, fst (fst r), snd (fst r))))
        (inv (fun _ => True)).
Proof.
  intros w (new & Hnew & Hs & Ha).
  pose proof (get_fade_and_brightness_trace light current_time w) as Ht.
  destruct (get_fade_and_brightness light current_time w) as [w' [r|e]].
  - destruct r as [[b f] d]. simpl.
    destruct Ht as [Ht|Ht]; rewrite Hnew in Ht.
    + exists (EvEvaluate light current_time (b, f, d) :: new).
      split; [exact Ht|]. split; [exact Hs|]. split.
      * apply acc_ok_cons. exact Ha.
      * exists current_time, d. left. reflexivity.
    + exists (EvEvaluate light current_time (b, f, d)
              :: EvCallback light (get_max_fade_ms (lights w light))
                            current_time (b, f, d) :: new).
      split; [exact Ht|]. split; [exact Hs|]. split.
      * do 2 apply acc_ok_cons. exact Ha.
      * exists current_time, d. left. reflexivity.
  - exists new. rewrite Ht. auto.
Qed.

Lemma hoare_call_update_callback b es :
  hoare (inv (fun new => good_batch new b /\ Forall (reported new) es))
        (call_update_callback self b)
        (fun _ => inv (fun new => Forall (reported new) es))
        (inv (fun _ => True)).
Proof.
  intros w (new & Hnew & Hs & Hg & Hes).
  pose proof (call_update_callback_trace self b w) as Ht.
  destruct (call_update_callback self b w) as [w' [u|e]]; simpl in Ht;
    exists (EvUpdate b :: new); rewrite Ht, Hnew; simpl;
    auto using Forall_reported_cons.
Qed.

Lemma hoare_send_update_batch_loop sequential_lights :
  forall sbl common current_time,
  hoare (inv (fun new => acc_ok new sbl common))
        (_send_update_batch_loop self sequential_lights sbl common current_time)
        (fun out =>
           inv (fun new =>
                  homogeneous out /\ Forall (reported new) out /\
                  ((1 <= max_batch_size self)%Z ->
                   (Z.of_nat (length out) <= max_batch_size self)%Z)))
        (inv (fun _ => True)).
Proof.
  induction sequential_lights as [|light rest IH]; intros sbl common current_time.
  - apply hoare_ret. intros w H. eapply inv_weaken; [|exact H].
    intros new _ Ha. split; [eapply acc_ok_homogeneous; exact Ha|].
    destruct Ha as [Hr Hc]. split; [exact Hr|].
    intro Hmax. destruct common as [c|].
    + apply Hc. exact Hmax.
    + subst sbl. simpl. lia.
  - simpl. eapply hoare_bind; [apply hoare_evaluate|].
    intros [[brightness fade_ms] done]. simpl.
    eapply hoare_bind.
    { apply hoare_inv_stable.
      destruct done; simpl; [apply trace_stable_ret|].
      apply trace_stable_bind; [apply trace_stable_get_dirty_schedule|].
      intro q. apply trace_stable_set_dirty_schedule. }
    intros ?.
    set (c' := match common with Some c => c | None => fade_ms end).
    destruct ((c' =? fade_ms)%Z
              && (Z.of_nat (length sbl) <? max_batch_size self)%Z) eqn:Hcond.
    + apply andb_prop in Hcond. destruct Hcond as [Heq Hlt].
      apply Z.eqb_eq in Heq. apply Z.ltb_lt in Hlt.
      eapply hoare_conseq; [apply IH| |intros ? w H; exact H|intros w H; exact H].
      intros w H. eapply inv_weaken; [|exact H].
      intros new _ [[Hr Hc] Hrep]. split.
      * apply Forall_app. split; [exact Hr|]. constructor; [|constructor].
        rewrite Heq. exact Hrep.
      * split.
        -- apply Forall_app. split.
           ++ destruct common as [c|]; [apply Hc|subst sbl; constructor].
           ++ constructor; [reflexivity|constructor].
        -- intros _. split; [destruct sbl; discriminate|].
           rewrite length_app. simpl. lia.
    + eapply hoare_bind.
      { eapply hoare_conseq;
          [apply (hoare_call_update_callback sbl [(light, brightness, fade_ms)])
          | |intros ? w H; exact H|intros w H; exact H].
        intros w H. eapply inv_weaken; [|exact H].
        intros new _ [[Hr Hc] Hrep]. split.
        - split; [eapply acc_ok_homogeneous; split; eassumption|].
          split; [exact Hr|]. intro Hmax.
          destruct common as [c|]; [apply Hc; exact Hmax|].
          subst sbl. exfalso. unfold c' in Hcond. simpl in Hcond.
          rewrite Z.eqb_refl in Hcond. simpl in Hcond.
          apply Z.ltb_ge in Hcond. lia.
        - constructor; [exact Hrep|constructor]. }
      intros ?.
      eapply hoare_bind;
        [apply hoare_inv_stable; apply trace_stable_get_time|].
      intros now.
      eapply hoare_conseq; [apply IH| |intros ? w H; exact H|intros w H; exact H].
      intros w H. eapply inv_weaken; [|exact H].
      intros new _ Hrep. split; [exact Hrep|].
      split; [constructor; [reflexivity|constructor]|].
      intros Hmax. split; [discriminate|]. simpl. lia.
Qed.

Lemma hoare_send_update_batch sequential_lights :
  hoare (inv (fun _ => True))
        (_send_update_batch self sequential_lights)
        (fun _ => inv (fun _ => True))
        (inv (fun _ => True)).
Proof.
  unfold _send_update_batch.
  eapply hoare_bind; [apply hoare_inv_stable; apply trace_stable_get_time|].
  intros current_time.
  eapply hoare_bind.
  { eapply hoare_conseq;
      [apply hoare_send_update_batch_loop| |intros ? w H; exact H
      |intros w H; exact H].
    intros w H. eapply inv_weaken; [|exact H].
    intros new _ _. split; [constructor|reflexivity]. }
  intros out. destruct out as [|e out]; simpl.
  - apply hoare_ret. intros w H. eapply inv_weaken; [|exact H]. auto.
  - eapply hoare_conseq;
      [apply (hoare_call_update_callback (e :: out) [])|
      |intros ? w H; eapply inv_weaken; [|exact H]; auto
      |intros w H; exact H].
    intros w H. eapply inv_weaken; [|exact H].
    intros new _ (Hh & Hr & Hl). split; [|constructor].
    split; [exact Hh|]. split; [exact Hr|]. intro Hmax.
    split; [discriminate|]. apply Hl. exact Hmax.
Qed.

Lemma hoare_detect_runs fuel :
  forall i last_light sequential_lights,
  hoare (inv (fun _ => True))
        (detect_runs self fuel i last_light sequential_lights)
        (fun _ => inv (fun _ => True))
        (inv (fun _ => True)).
Proof.
  induction fuel as [|fuel IH]; intros i last_light sequential_lights.
  - apply hoare_raise. auto.
  - simpl.
    eapply hoare_bind;
      [apply hoare_inv_stable; apply trace_stable_get_dirty_lights|].
    intros dirty. destruct (nth_error dirty i) as [light|];
      [|apply hoare_ret; auto].
    destruct (match last_light with
              | Some l => Nat.eqb light l
              | None => false
              end); [apply IH|].
    destruct (is_empty sequential_lights); [apply IH|].
    destruct (is_sequential_function self (last sequential_lights light) light);
      [apply IH|].
    eapply hoare_bind; [apply hoare_send_update_batch|]. intros u. apply IH.
Qed.

Lemma hoare_send_updates_iteration fuel :
  hoare (inv (fun _ => True))
        (_send_updates_iteration self fuel)
        (fun _ => inv (fun _ => True))
        (inv (fun _ => True)).
Proof.
  unfold _send_updates_iteration.
  eapply hoare_bind;
    [apply hoare_inv_stable; apply trace_stable_get_dirty_schedule|].
  intros q.
  eapply hoare_bind.
  { apply hoare_inv_stable.
    destruct (negb (is_empty q)); apply trace_stable_ret. }
  intros ?.
  eapply hoare_bind; [apply hoare_inv_stable; apply trace_stable_promote_due|].
  intros ?.
  eapply hoare_bind;
    [apply hoare_inv_stable; apply trace_stable_get_dirty_lights|].
  intros l.
  eapply hoare_bind.
  { apply hoare_inv_stable.
    destruct (negb (is_empty l)); apply trace_stable_ret. }
  intros ?.
  eapply hoare_bind; [apply hoare_detect_runs|]. intros sequential_lights.
  eapply hoare_bind.
  { destruct (negb (is_empty sequential_lights));
      [apply hoare_send_update_batch|apply hoare_ret; auto]. }
  intros ?.
  eapply hoare_conseq;
    [apply hoare_inv_stable; apply trace_stable_set_dirty_lights
    |intros w H; exact H|intros ? w H; exact H|intros w H; exact H].
Qed.

Lemma hoare_send_updates fuel requests :
  hoare (inv (fun _ => True))
        (_send_updates self fuel requests)
        (fun _ => inv (fun _ => True))
        (inv (fun _ => True)).
Proof.
  induction requests as [|rs rest IH]; simpl.
  - apply hoare_ret. auto.
  - eapply hoare_bind; [apply hoare_send_updates_iteration|]. intros ?.
    eapply hoare_bind;
      [apply hoare_inv_stable; apply trace_stable_do_requests|].
    intros ?. exact IH.
Qed.

Lemma sink_calls_ok_tail ev tr : sink_calls_ok (ev :: tr) -> sink_calls_ok tr.
Proof. destruct ev; simpl; tauto. Qed.

Lemma sink_calls_ok_split newer :
  forall b older, sink_calls_ok (newer ++ EvUpdate b :: older) -> good_batch older b.
Proof.
  induction newer as [|ev newer IH]; intros b older H.
  - apply H.
  - apply IH. eapply sink_calls_ok_tail. exact H.
Qed.

End BatchInvariant.

(** Whatever the loop does, returning or raising, it only adds events to the
    trace, and every call of the sink among them is good. *)
Lemma send_updates_sink_calls_ok self fuel requests w :
  exists new,
    trace (fst (_send_updates self fuel requests w)) = new ++ trace w /\
    forall newer b older,
      new = newer ++ EvUpdate b :: older -> good_batch self older b.
Proof.
  assert (Hinv : inv self (trace w) (fun _ => True) w).
  { exists []. simpl. auto. }
  pose proof (hoare_send_updates self (trace w) fuel requests w Hinv) as Hh.
  assert (H : inv self (trace w) (fun _ => True)
                  (fst (_send_updates self fuel requests w))).
  { destruct (_send_updates self fuel requests w) as [w' [a|e]]; exact Hh. }
  destruct H as (new & Ht & Hs & _). exists new. split; [exact Ht|].
  intros newer b older ->. eapply sink_calls_ok_split. exact Hs.
Qed.


(** The same for one flush of a run. *)
Lemma send_update_batch_sink_calls_ok self run w :
  exists new,
    trace (after (_send_update_batch self run) w) = new ++ trace w /\
    forall newer b older,
      new = newer ++ EvUpdate b :: older -> good_batch self older b.
Proof.
  assert (Hinv : inv self (trace w) (fun _ => True) w).
  { exists []. simpl. auto. }
  pose proof (hoare_send_update_batch self (trace w) run w Hinv) as Hh.
  assert (H : inv self (trace w) (fun _ => True)
                  (after (_send_update_batch self run) w)).
  { unfold after. destruct (_send_update_batch self run w) as [w' [a|e]]; exact Hh. }
  destruct H as (new & Ht & Hs & _). exists new. split; [exact Ht|].
  intros newer b older ->. eapply sink_calls_ok_split. exact Hs.
Qed.

(** ** The properties of the specification *)

(** C5 (batch size bound).  With [max_batch_size >= 1], no batch handed to
    the write sink has more than [max_batch_size] entries: neither in the
    flush of any run of lights, nor in any number of iterations of the
    update loop, whatever the state they start from, the requests that
    arrive and the way they end (return or exception).  The sink
    may suspend the loop and let other tasks call [set_fade]. *)
Theorem batch_size_bound self run fuel requests w :
  (1 <= max_batch_size self)%Z ->
  (exists new,
     trace (after (_send_update_batch self run) w) = new ++ trace w /\
     forall b, In (EvUpdate b) new ->
               (Z.of_nat (length b) <= max_batch_size self)%Z) /\
  (exists new,
     trace (after (_send_updates self fuel requests) w) = new ++ trace w /\
     forall b, In (EvUpdate b) new ->
               (Z.of_nat (length b) <= max_batch_size self)%Z).
Proof.
  intro Hmax. split.
  - destruct (send_update_batch_sink_calls_ok self run w) as (new & Ht & Hg).
    exists new. split; [exact Ht|]. intros b Hb.
    apply in_split in Hb. destruct Hb as (newer & older & Heq).
    apply (Hg newer b older Heq). exact Hmax.
  - destruct (send_updates_sink_calls_ok self fuel requests w) as (new & Ht & Hg).
    exists new. split; [exact Ht|]. intros b Hb.
    apply in_split in Hb. destruct Hb as (newer & older & Heq).
    apply (Hg newer b older Heq). exact Hmax.
Qed.

(** Three adjacent lights with the same fade and [max_batch_size = 2]. *)
Lemma batch_size_bound_witness :
  (1 <= max_batch_size (bus 2))%Z /\
  ((exists new,
      trace (after (_send_update_batch (bus 2) [1; 2; 3]) three_dirty)
      = new ++ trace three_dirty /\
      forall b, In (EvUpdate b) new ->
                (Z.of_nat (length b) <= max_batch_size (bus 2))%Z) /\
   (exists new,
      trace (after (_send_updates (bus 2) some_fuel [[]; []]) three_dirty)
      = new ++ trace three_dirty /\
      forall b, In (EvUpdate b) new ->
                (Z.of_nat (length b) <= max_batch_size (bus 2))%Z)).
Proof.
  split; [simpl; lia|].
  apply (batch_size_bound (bus 2) [1; 2; 3] some_fuel [[]; []] three_dirty).
  simpl. lia.
Defined.

(** The scenarios of the specification.  Lights at addresses 1, 2 and 4,
    all dirty with the same fade: one batch for 1 and 2, one for 4. *)
Example adjacent_lights_share_a_batch :
  written
    (trace (after (_send_updates_iteration (bus 8) some_fuel)
                  (after (set_fade 1 (cb_const 1 0 true) ;;
                          set_fade 2 (cb_const 1 0 true) ;;
                          set_fade 4 (cb_const 1 0 true)) fresh)))
  = [[(1, 1%Q, 0%Z); (2, 1%Q, 0%Z)]; [(4, 1%Q, 0%Z)]].
Proof. reflexivity. Qed.

(** Three adjacent lights and [max_batch_size = 2]: two batches, [[c1; c2]]
    then [[c3]]. *)
Example three_adjacent_max_two :
  written (trace (after (_send_updates_iteration (bus 2) some_fuel) three_dirty))
  = [[(1, 1%Q, 0%Z); (2, 1%Q, 0%Z)]; [(3, 1%Q, 0%Z)]].
Proof. reflexivity. Qed.

(** C6 (duration homogeneity).  In every batch handed to the write sink all
    entries carry the same fade duration, and each entry carries the
    brightness and the fade duration that an evaluation of its light,
    made before the batch was written, reported.  This holds of the flush
    of any run and of any number of iterations of the update loop. *)
Theorem duration_homogeneity self run fuel requests w :
  (exists new,
     trace (after (_send_update_batch self run) w) = new ++ trace w /\
     forall newer b older, new = newer ++ EvUpdate b :: older ->
       homogeneous b /\ Forall (reported older) b) /\
  (exists new,
     trace (after (_send_updates self fuel requests) w) = new ++ trace w /\
     forall newer b older, new = newer ++ EvUpdate b :: older ->
       homogeneous b /\ Forall (reported older) b).
Proof.
  split.
  - destruct (send_update_batch_sink_calls_ok self run w) as (new & Ht & Hg).
    exists new. split; [exact Ht|]. intros newer b older Heq.
    destruct (Hg newer b older Heq) as (Hh & Hr & _). auto.
  - destruct (send_updates_sink_calls_ok self fuel requests w) as (new & Ht & Hg).
    exists new. split; [exact Ht|]. intros newer b older Heq.
    destruct (Hg newer b older Heq) as (Hh & Hr & _). auto.
Qed.

(** C8 (no empty batch).  With [max_batch_size >= 1] the write sink is
    never called with an empty list: neither in the flush of any run, nor
    in any number of iterations of the update loop. *)
Theorem sink_never_called_with_empty_batch self run fuel requests w :
  (1 <= max_batch_size self)%Z ->
  (exists new,
     trace (after (_send_update_batch self run) w) = new ++ trace w /\
     ~ In (EvUpdate []) new) /\
  (exists new,
     trace (after (_send_updates self fuel requests) w) = new ++ trace w /\
     ~ In (EvUpdate []) new).
Proof.
  intro Hmax. split.
  - destruct (send_update_batch_sink_calls_ok self run w) as (new & Ht & Hg).
    exists new. split; [exact Ht|]. intros Hb.
    apply in_split in Hb. destruct Hb as (newer & older & Heq).
    destruct (Hg newer [] older Heq) as (_ & _ & Hne).
    destruct (Hne Hmax) as [Hne' _]. apply Hne'. reflexivity.
  - destruct (send_updates_sink_calls_ok self fuel requests w) as (new & Ht & Hg).
    exists new. split; [exact Ht|]. intros Hb.
    apply in_split in Hb. destruct Hb as (newer & older & Heq).
    destruct (Hg newer [] older Heq) as (_ & _ & Hne).
    destruct (Hne Hmax) as [Hne' _]. apply Hne'. reflexivity.
Qed.

Lemma sink_never_called_with_empty_batch_witness :
  (1 <= max_batch_size (bus 1))%Z /\
  ((exists new,
      trace (after (_send_update_batch (bus 1) [1; 2; 3]) three_dirty)
      = new ++ trace three_dirty /\
      ~ In (EvUpdate []) new) /\
   (exists new,
      trace (after (_send_updates (bus 1) some_fuel [[]; []]) three_dirty)
      = new ++ trace three_dirty /\
      ~ In (EvUpdate []) new)).
Proof.
  split; [simpl; lia|].
  apply (sink_never_called_with_empty_batch (bus 1) [1; 2; 3] some_fuel
                                            [[]; []] three_dirty).
  simpl. lia.
Defined.

(** C10 (evaluation needs a callback).  A light on which [set_fade] was
    never called has no callback and no cached brightness; evaluating it
    calls [None] and raises [TypeError], leaving the state as it was, and
    so does the flush of a run that starts with it.  Hence an evaluation
    that returns was made on a light with a callback or a cached
    brightness. *)
Theorem evaluation_requires_set_fade self light rest current_time w :
  _callback (lights w light) = None ->
  _last_brightness (lights w light) = None ->
  get_fade_and_brightness light current_time w = (w, Raise TypeError) /\
  snd (_send_update_batch self (light :: rest) w) = Raise TypeError /\
  (forall light' w' r,
     get_fade_and_brightness light' current_time w = (w', Ok r) ->
     _callback (lights w light') <> None \/
     _last_brightness (lights w light') <> None).
Proof.
  intros Hcb Hlast.
  assert (Hraise : forall t w0,
            _callback (lights w0 light) = None ->
            _last_brightness (lights w0 light) = None ->
            get_fade_and_brightness light t w0 = (w0, Raise TypeError)).
  { intros t w0 H1 H2. unfold get_fade_and_brightness, bind, load.
    rewrite H2. simpl. rewrite H1. reflexivity. }
  split; [apply Hraise; assumption|]. split.
  - unfold _send_update_batch, bind. simpl. unfold bind.
    rewrite Hraise; [reflexivity|exact Hcb|exact Hlast].
  - intros light' w' r Hok.
    destruct (_callback (lights w light')) as [cb|] eqn:Hcb';
      [left; discriminate|].
    right. intro Hl. unfold get_fade_and_brightness, bind, load in Hok.
    rewrite Hl in Hok. simpl in Hok. rewrite Hcb' in Hok. discriminate.
Qed.

(** Light 7, as [__init__] left it. *)
Lemma evaluation_requires_set_fade_witness :
  get_fade_and_brightness 7 0%Q fresh = (fresh, Raise TypeError) /\
  snd (_send_update_batch (bus 8) [7; 8] fresh) = Raise TypeError /\
  (forall light' w' r,
     get_fade_and_brightness light' 0%Q fresh = (w', Ok r) ->
     _callback (lights fresh light') <> None \/
     _last_brightness (lights fresh light') <> None).
Proof.
  apply (evaluation_requires_set_fade (bus 8) 7 [8] 0%Q fresh); reflexivity.
Defined.

Lemma bind_trace_extends {A B : Type} (m : M A) (k : A -> M B) w :
  (forall a, trace_grows (k a)) ->
  exists new, trace (fst (bind m k w)) = new ++ trace (fst (m w)).
Proof.
  intros Hk. unfold bind. destruct (m w) as [w' [a|e]]; simpl.
  - apply Hk.
  - exists []. reflexivity.
Qed.

Lemma evaluate_with_callback light t w :
  _callback (lights w light) <> None ->
  exists w' r older,
    get_fade_and_brightness light t w = (w', Ok r) /\
    trace w' = older ++ trace w /\ written older = [] /\
    evaluated older = [light].
Proof.
  intro Hcb. unfold get_fade_and_brightness, bind, load.
  destruct (truthy (_last_brightness (lights w light))) as [cached|].
  - simpl. eexists _, _, [_]. split; [reflexivity|]. simpl. auto.
  - destruct (_callback (lights w light)) as [cb|]; [|congruence].
    destruct (cb (get_max_fade_ms (lights w light)) t) as [[b f] d].
    destruct d; simpl; eexists _, _, [_; _];
      (split; [reflexivity|]); simpl; auto.
Qed.

Lemma first_flush_is_empty self light rest t w :
  (max_batch_size self <= 0)%Z ->
  _callback (lights w light) <> None ->
  exists newer older,
    trace (fst (_send_update_batch_loop self (light :: rest) [] None t w))
    = newer ++ EvUpdate [] :: older ++ trace w /\
    written older = [] /\ evaluated older = [light].
Proof.
  intros Hmax Hcb.
  destruct (evaluate_with_callback light t w Hcb)
    as (w2 & [[b f] d] & older & Hgfb & Htr & Hwr & Hev).
  simpl _send_update_batch_loop. unfold bind at 1. rewrite Hgfb.
  cbv iota beta.
  assert (Hlt : (0 <? max_batch_size self)%Z = false) by (apply Z.ltb_ge; lia).
  rewrite Z.eqb_refl, Hlt. simpl andb. cbv iota.
  set (sched := if negb d
                then q <- get_dirty_schedule ;;
                     set_dirty_schedule
                       (q ++ [((t + inject_Z f / 1000)%Q, light)])
                else ret tt).
  assert (Hs : exists w3, sched w2 = (w3, Ok tt) /\ trace w3 = trace w2).
  { unfold sched. destruct d; simpl; eexists; split; reflexivity. }
  destruct Hs as (w3 & Hs & Htr3).
  unfold bind at 1. rewrite Hs. cbv iota beta.
  match goal with
  | |- context [bind (call_update_callback self []) ?k w3] =>
      destruct (bind_trace_extends (call_update_callback self []) k w3)
        as [newer Hn]
  end.
  { intros ?. apply trace_grows_bind;
      [apply trace_stable_grows, trace_stable_get_time|].
    intros now. apply trace_grows_send_update_batch_loop. }
  exists newer, older. rewrite Hn. split; [|auto].
  rewrite call_update_callback_trace, Htr3, Htr. reflexivity.
Qed.

(** C9 as the specification states it fails: construction with
    [max_batch_size = 0] raises nothing, and the first iteration of the loop
    then hands the sink an empty batch. *)
Lemma construction_accepts_zero_max_batch_size :
  (forall e,
     __init__ (clock (bus 0)) (sort_function (bus 0))
              (is_sequential_function (bus 0)) (update_callback (bus 0))
              (update_hz (bus 0)) 0%Z <> Raise e) /\
  __init__ (clock (bus 0)) (sort_function (bus 0))
           (is_sequential_function (bus 0)) (update_callback (bus 0))
           (update_hz (bus 0)) 0%Z = Ok (bus 0, ([], [])) /\
  written (trace (after (_send_updates_iteration (bus 0) some_fuel) three_dirty))
  = [[]; [(1, 1%Q, 0%Z)]; [(2, 1%Q, 0%Z)]; [(3, 1%Q, 0%Z)]].
Proof.
  split; [intros e H; discriminate H|]. split; reflexivity.
Qed.


(** C9, amended.  Construction with [max_batch_size <= 0] does not fail:
    [__init__] checks nothing and returns the scheduler with the value
    stored as given, an empty dirty list and an empty schedule.  The value
    shows when a run is flushed: right after the evaluation of the first
    light of the run, and before any other call of the sink, the sink is
    called with the empty batch. *)
Theorem construction_checks_nothing clock' sort_function'
    is_sequential_function' update_callback' update_hz' max_batch_size' :
  (max_batch_size' <= 0)%Z ->
  exists self,
    __init__ clock' sort_function' is_sequential_function' update_callback'
             update_hz' max_batch_size' = Ok (self, ([], [])) /\
    self = mkSystem clock' sort_function' is_sequential_function'
                    update_callback' update_hz' max_batch_size' /\
    forall light rest w,
      _callback (lights w light) <> None ->
      exists newer older,
        trace (after (_send_update_batch self (light :: rest)) w)
        = newer ++ EvUpdate [] :: older ++ trace w /\
        written older = [] /\ evaluated older = [light].
Proof.
  intro Hmax. eexists. split; [reflexivity|]. split; [reflexivity|].
  intros light rest w Hcb.
  set (self := mkSystem clock' sort_function' is_sequential_function'
                        update_callback' update_hz' max_batch_size').
  unfold after, _send_update_batch.
  unfold bind at 1. unfold get_time at 1. cbv iota beta.
  match goal with
  | |- context [trace (fst (bind ?m ?k ?w1))] =>
      destruct (bind_trace_extends m k w1) as [newer' Hn];
      [|destruct (first_flush_is_empty self light rest
                    (clock self (clock_reads w)) w1 Hmax Hcb)
          as (newer & older & Ht & Hw & He)]
  end.
  { intros out. destruct (negb (is_empty out)).
    - apply trace_grows_call_update_callback.
    - apply trace_stable_grows, trace_stable_ret. }
  rewrite Hn. exists (newer' ++ newer), older. split; [|auto].
  rewrite <- app_assoc. f_equal. exact Ht.
Qed.

Lemma construction_checks_nothing_witness :
  (0 <= 0)%Z /\
  exists self,
    __init__ (clock (bus 0)) (sort_function (bus 0))
             (is_sequential_function (bus 0)) (update_callback (bus 0))
             (update_hz (bus 0)) 0%Z = Ok (self, ([], [])) /\
    self = mkSystem (clock (bus 0)) (sort_function (bus 0))
                    (is_sequential_function (bus 0)) (update_callback (bus 0))
                    (update_hz (bus 0)) 0%Z /\
    forall light rest w,
      _callback (lights w light) <> None ->
      exists newer older,
        trace (after (_send_update_batch self (light :: rest)) w)
        = newer ++ EvUpdate [] :: older ++ trace w /\
        written older = [] /\ evaluated older = [light].
Proof.
  split; [lia|].
  apply (construction_checks_nothing (clock (bus 0)) (sort_function (bus 0))
           (is_sequential_function (bus 0)) (update_callback (bus 0))
           (update_hz (bus 0)) 0%Z).
  lia.
Defined.

(** C1 fails on the code: [sorted] returns a new list, which
    [_send_updates] drops, so the dirty lights are processed in the order
    of their marking.  Light 2 marked before light 1: the sorted order is
    [[1; 2]], one run and one batch; the loop evaluates 2 then 1 and writes
    two batches. *)
Theorem dirty_lights_processed_unsorted :
  let w := after (_send_updates_iteration (bus 8) some_fuel) two_reversed in
  dirty_lights two_reversed = [2; 1] /\
  sorted (sort_function (bus 8)) (dirty_lights two_reversed) = [1; 2] /\
  evaluated (trace w) = [2; 1] /\
  ~ ordered_by (sort_function (bus 8)) (evaluated (trace w)) /\
  written (trace w) = [[(2, 1%Q, 0%Z)]; [(1, 1%Q, 0%Z)]].
Proof.
  cbv zeta. repeat split; try reflexivity.
  change (evaluated
            (trace (after (_send_updates_iteration (bus 8) some_fuel)
                          two_reversed)))
    with [2; 1].
  intro H. inversion H as [|? ? _ Hall]; subst.
  inversion Hall as [|? ? Hle _]; subst.
  vm_compute in Hle. apply Hle. reflexivity.
Qed.

(** C3 fails on the code: the schedule is not sorted (the result of
    [sorted] is dropped) and the promotion stops at the first entry that is
    not due.  Light 1 is due at 10 s and light 2, behind it, at 1 s; at the
    iteration whose clock reads 2 s nothing is promoted and the entry of
    light 2, due, stays in the schedule; it stays there until light 1 is
    due. *)
Theorem due_entry_left_in_schedule :
  let before := after (_send_updates (bus 8) some_fuel [[]]) two_fading in
  let now := clock (bus 8) (clock_reads before) in
  let w := after (_send_updates_iteration (bus 8) some_fuel) before in
  dirty_schedule before
  = [((0 + inject_Z 10000 / 1000)%Q, 1); ((0 + inject_Z 1000 / 1000)%Q, 2)] /\
  now = 2%Q /\
  Qle_bool (0 + inject_Z 1000 / 1000) now = true /\
  dirty_schedule w = dirty_schedule before /\
  dirty_lights w = [] /\
  trace w = trace before /\
  evaluated
    (trace (after (_send_updates (bus 8) some_fuel [[]; []; []; []; []; []; []; []; []])
                  two_fading))
  = [1; 2].
Proof. vm_compute. repeat split; reflexivity. Qed.

(** What is cached is returned without the callback, when it is not 0. *)
Lemma cached_evaluation light current_time w cached :
  truthy (_last_brightness (lights w light)) = Some cached ->
  get_fade_and_brightness light current_time w
  = (mkWorld (dirty_lights w) (dirty_schedule w) (lights w) (clock_reads w)
             (sink_calls w)
             (EvEvaluate light current_time (cached, 0%Z, true) :: trace w),
     Ok (cached, 0%Z, true)).
Proof.
  intro H. unfold get_fade_and_brightness, bind, load. rewrite H. reflexivity.
Qed.

(** A completion reported with a brightness other than 0 is cached. *)
Lemma completion_caches light current_time w w' brightness fade_ms :
  get_fade_and_brightness light current_time w
  = (w', Ok (brightness, fade_ms, true)) ->
  Qeq_bool brightness 0 = false ->
  truthy (_last_brightness (lights w' light)) = Some brightness.
Proof.
  unfold get_fade_and_brightness, bind, load. intros H Hnz.
  destruct (truthy (_last_brightness (lights w light))) as [cached|] eqn:Hc.
  - simpl in H. injection H as <- <- <-. exact Hc.
  - destruct (_callback (lights w light)) as [cb|]; [|discriminate].
    destruct (cb (get_max_fade_ms (lights w light)) current_time)
      as [[b f] d].
    destruct d; simpl in H; [|discriminate].
    injection H as <- <- <-. simpl. rewrite Nat.eqb_refl. simpl.
    rewrite Hnz. reflexivity.
Qed.

(** C4 fails on the code for the terminal brightness 0: the test
    [if self._last_brightness:] is false for [0.0], so a light whose fade
    completed at brightness 0 has its value stored and its callback called
    again at each later evaluation.  With a terminal brightness of 1 the
    callback is called once. *)
Theorem zero_brightness_not_cached :
  let w := after (get_fade_and_brightness 1 0 ;;
                  get_fade_and_brightness 1 1) switched_off in
  let w' := after (get_fade_and_brightness 2 0 ;;
                   get_fade_and_brightness 2 1)
                  (after (set_fade 2 (cb_const 1 0 true)) fresh) in
  _last_brightness (lights w 1) = Some 0%Q /\
  callbacks_invoked (trace w) = [(1, 0%Q); (1, 1%Q)] /\
  callbacks_invoked (trace w') = [(2, 0%Q)].
Proof. vm_compute. repeat split; reflexivity. Qed.

(** C7 fails on the code when the two requests on a light are separated by
    a request on another light: the dirty list is not sorted (see C1), the
    two markings are not next to each other, and the light is evaluated
    twice, written twice and scheduled twice in the iteration.  Both
    evaluations use the second callback. *)
Theorem separated_requests_evaluated_twice :
  let w := after (_send_updates_iteration (bus 8) some_fuel) asked_twice in
  dirty_lights asked_twice = [1; 2; 1] /\
  evaluated (trace w) = [1; 2; 1] /\
  callbacks_invoked (trace w) = [(1, 0%Q); (2, 0%Q); (1, 1%Q)] /\
  written (trace w)
  = [[(1, 3 # 4, 500%Z); (2, 1%Q, 500%Z)]; [(1, 3 # 4, 500%Z)]] /\
  map snd (dirty_schedule w) = [1; 2; 1].
Proof. vm_compute. repeat split; reflexivity. Qed.

(** What holds of C7: the second [set_fade] replaces the callback of the
    first, and two markings next to each other are processed once. *)
Example requests_in_a_row_evaluated_once :
  let w := after (_send_updates_iteration (bus 8) some_fuel) asked_twice_in_a_row in
  dirty_lights asked_twice_in_a_row = [1; 1] /\
  history w = [EvCallback 1 100 0 (3 # 4, 500%Z, false);
               EvEvaluate 1 0 (3 # 4, 500%Z, false);
               EvUpdate [(1, 3 # 4, 500%Z)]].
Proof. vm_compute. repeat split; reflexivity. Qed.

Lemma set_fade_replaces_callback light cb1 cb2 w :
  let w' := after (set_fade light cb1 ;; set_fade light cb2) w in
  _callback (lights w' light) = Some cb2 /\
  _last_brightness (lights w' light) = None /\
  dirty_lights w' = dirty_lights w ++ [light; light].
Proof.
  simpl. rewrite Nat.eqb_refl. simpl. rewrite <- app_assoc. auto.
Qed.

(** ** No lost updates *)

Lemma evaluated_app n2 n1 : evaluated (n2 ++ n1) = evaluated n1 ++ evaluated n2.
Proof.
  induction n2 as [|ev n2 IH]; simpl; [symmetry; apply app_nil_r|].
  destruct ev; rewrite IH; auto using app_assoc.
Qed.

Lemma scheduled_app n2 n1 : scheduled (n2 ++ n1) = scheduled n1 ++ scheduled n2.
Proof.
  induction n2 as [|ev n2 IH]; simpl; [symmetry; apply app_nil_r|].
  destruct ev as [? ? ? ?|? ? [[? ?] []]|?]; rewrite IH; auto using app_assoc.
Qed.

Lemma scheduled_evaluated tr due light :
  In (due, light) (scheduled tr) -> In light (evaluated tr).
Proof.
  induction tr as [|ev tr IH]; simpl; [tauto|].
  destruct ev as [? ? ? ?|l t [[b f] d]|?]; auto.
  destruct d; rewrite in_app_iff; simpl.
  - auto.
  - rewrite in_app_iff. simpl. intros [H|[H|[]]]; [auto|].
    injection H as _ <-. auto.
Qed.

Lemma evaluated_In tr light :
  In light (evaluated tr) <-> exists t r, In (EvEvaluate light t r) tr.
Proof.
  induction tr as [|ev tr IH]; simpl.
  - split; [tauto|]. intros (t & r & []).
  - destruct ev as [l m t r|l t r|b].
    + rewrite IH. split; intros (t' & r' & H); exists t', r'; [auto|].
      destruct H as [H|H]; [discriminate|exact H].
    + rewrite in_app_iff, IH. simpl. split.
      * intros [(t' & r' & H)|[<-|[]]]; [exists t', r'; auto|].
        exists t, r. auto.
      * intros (t' & r' & [H|H]); [injection H as -> _ _; auto|].
        left. exists t', r'. exact H.
    + rewrite IH. split; intros (t' & r' & H); exists t', r'; [auto|].
      destruct H as [H|H]; [discriminate|exact H].
Qed.

Section NoLostUpdates.

Variable self : PlatformBatchLightSystem.

(** The write sink accepts every batch and does not suspend the loop: no
    other task calls [set_fade] while the sink is awaited. *)
Hypothesis sink_accepts : forall k b, update_callback self k b = Some [].

Local Abbreviation step := (step self).
Local Abbreviation times_from := (times_from self).

Lemma step_refl kmin w : step kmin w w [].
Proof.
  constructor; simpl; auto.
  - symmetry. apply app_nil_r.
  - intros light t r [].
Qed.

Lemma step_trans kmin w1 w2 w3 n1 n2 :
  step kmin w1 w2 n1 -> step kmin w2 w3 n2 -> step kmin w1 w3 (n2 ++ n1).
Proof.
  intros [T1 S1 D1 R1 C1 M1] [T2 S2 D2 R2 C2 M2]. constructor.
  - rewrite T2, T1. apply app_assoc.
  - rewrite S2, S1, scheduled_app. symmetry. apply app_assoc.
  - congruence.
  - lia.
  - auto.
  - intros light t r H. apply in_app_or in H. destruct H; eauto.
Qed.

(** The first two statements of the body of the loop of
    [_send_update_batch]: evaluate the light, schedule it if its fade is
    not complete. *)
Lemma evaluate_and_schedule_ok kmin k light w :
  has_callback w light -> kmin <= k ->
  exists w' brightness fade_ms done new,
    get_fade_and_brightness light (clock self k) w
    = (w', Ok (brightness, fade_ms, done)) /\
    forall sched,
      sched = (if negb done
               then q <- get_dirty_schedule ;;
                    set_dirty_schedule
                      (q ++ [((clock self k + inject_Z fade_ms / 1000)%Q, light)])
               else ret tt) ->
      exists w'', sched w' = (w'', Ok tt) /\
                  step kmin w w'' new /\ evaluated new = [light] /\
                  clock_reads w'' = clock_reads w.
Proof.
  intros Hcb Hk. unfold has_callback in Hcb.
  unfold get_fade_and_brightness, bind, load.
  destruct (truthy (_last_brightness (lights w light))) as [cached|].
  - simpl.
    eexists _, cached, 0%Z, true,
      [EvEvaluate light (clock self k) (cached, 0%Z, true)].
    split; [reflexivity|].
    intros sched ->. simpl. eexists. split; [reflexivity|].
    split; [|auto]. constructor; simpl; auto.
    + symmetry. apply app_nil_r.
    + intros l t r [H|[]]. injection H as <- <- <-. eauto.
  - destruct (_callback (lights w light)) as [cb|] eqn:Hcb'; [|congruence].
    destruct (cb (get_max_fade_ms (lights w light)) (clock self k))
      as [[b f] d].
    assert (Ht : times_from kmin
                   [EvEvaluate light (clock self k) (b, f, d);
                    EvCallback light (get_max_fade_ms (lights w light))
                               (clock self k) (b, f, d)]).
    { intros l t r [H|[H|[]]]; [|discriminate].
      injection H as <- <- <-. eauto. }
    destruct d;
      [eexists _, b, f, true,
         [EvEvaluate light (clock self k) (b, f, true);
          EvCallback light (get_max_fade_ms (lights w light))
                     (clock self k) (b, f, true)]
      |eexists _, b, f, false,
         [EvEvaluate light (clock self k) (b, f, false);
          EvCallback light (get_max_fade_ms (lights w light))
                     (clock self k) (b, f, false)]];
      simpl; (split; [reflexivity|]); intros sched ->; simpl;
      (eexists; split; [reflexivity|]); (split; [|auto]);
      constructor; simpl; auto.
    + symmetry. apply app_nil_r.
    + unfold has_callback. simpl. intros l Hl.
      destruct (Nat.eqb l light) eqn:E; [simpl; congruence|exact Hl].
Qed.

Lemma step_sink_call kmin w b :
  exists w', call_update_callback self b w = (w', Ok tt) /\
             step kmin w w' [EvUpdate b] /\ clock_reads w' = clock_reads w.
Proof.
  unfold call_update_callback, bind, log, next_sink_call. simpl.
  rewrite sink_accepts. simpl.
  eexists. split; [reflexivity|]. split; [|reflexivity].
  constructor; simpl; auto.
  - symmetry. apply app_nil_r.
  - intros l t r [H|[]]. discriminate.
Qed.

Lemma step_get_time kmin w :
  step kmin w (fst (get_time self w)) [].
Proof.
  constructor; simpl; auto.
  - symmetry. apply app_nil_r.
  - intros l t r [].
Qed.

Lemma send_update_batch_loop_ok kmin sequential_lights :
  forall sbl common k w,
    (forall light, In light sequential_lights -> has_callback w light) ->
    kmin <= k -> kmin <= clock_reads w ->
    exists w' out new,
      _send_update_batch_loop self sequential_lights sbl common (clock self k) w
      = (w', Ok out) /\
      step kmin w w' new /\ evaluated new = sequential_lights.
Proof.
  induction sequential_lights as [|light rest IH]; intros sbl common k w Hcb Hk Hr.
  - exists w, sbl, []. split; [reflexivity|]. split; [apply step_refl|reflexivity].
  - destruct (evaluate_and_schedule_ok kmin k light w (Hcb light (or_introl eq_refl)) Hk)
      as (w1 & b & f & d & new1 & Hgfb & Hsched).
    destruct (Hsched _ eq_refl) as (w2 & Hs & Hstep & Hev & Hreads).
    simpl _send_update_batch_loop. unfold bind at 1. rewrite Hgfb.
    cbv iota beta. unfold bind at 1. rewrite Hs. cbv iota beta.
    assert (Hcb2 : forall l, In l rest -> has_callback w2 l).
    { intros l Hl. apply (step_callbacks _ _ _ _ _ Hstep). apply Hcb. right. exact Hl. }
    match goal with |- context [if ?c then _ else _] => destruct c end.
    + destruct (IH (sbl ++ [(light, b, match common with Some c => c | None => f end)])
                   (Some (match common with Some c => c | None => f end))
                   k w2 Hcb2 Hk ltac:(lia))
        as (w3 & out & new3 & Hloop & Hstep3 & Hev3).
      exists w3, out, (new3 ++ new1). split; [exact Hloop|]. split.
      * eapply step_trans; eassumption.
      * rewrite evaluated_app, Hev, Hev3. reflexivity.
    + destruct (step_sink_call kmin w2 sbl) as (w3 & Hcall & Hstep3 & Hreads3).
      unfold bind at 1. rewrite Hcall. cbv iota beta.
      unfold bind at 1. unfold get_time at 1. cbv iota beta.
      pose proof (step_get_time kmin w3) as Hstep4.
      unfold get_time in Hstep4. simpl fst in Hstep4.
      match goal with
      | |- context [_send_update_batch_loop self rest ?s ?c _ ?w4] =>
          destruct (IH s c (clock_reads w3) w4) as (w5 & out & new5 & Hloop & Hstep5 & Hev5)
      end.
      * intros l Hl. apply (step_callbacks _ _ _ _ _ Hstep4).
        apply (step_callbacks _ _ _ _ _ Hstep3). apply Hcb2. exact Hl.
      * lia.
      * simpl. lia.
      * exists w5, out, (new5 ++ [] ++ [EvUpdate sbl] ++ new1).
        split; [exact Hloop|]. split.
        -- eapply step_trans; [|exact Hstep5].
           eapply step_trans; [|exact Hstep4].
           eapply step_trans; eassumption.
        -- rewrite !evaluated_app, Hev, Hev5. reflexivity.
Qed.

Lemma send_update_batch_ok kmin sequential_lights w :
  (forall light, In light sequential_lights -> has_callback w light) ->
  kmin <= clock_reads w ->
  exists w' new,
    _send_update_batch self sequential_lights w = (w', Ok tt) /\
    step kmin w w' new /\ evaluated new = sequential_lights.
Proof.
  intros Hcb Hr. unfold _send_update_batch.
  unfold bind at 1. unfold get_time at 1. cbv iota beta.
  pose proof (step_get_time kmin w) as Hstep1.
  unfold get_time in Hstep1. simpl fst in Hstep1.
  match type of Hstep1 with
  | context [mkWorld ?a ?b ?c ?d ?e ?f] =>
      destruct (send_update_batch_loop_ok kmin sequential_lights [] None
                  (clock_reads w) (mkWorld a b c d e f))
        as (w2 & out & new2 & Hloop & Hstep2 & Hev2)
  end.
  - intros l Hl. apply (step_callbacks _ _ _ _ _ Hstep1). apply Hcb. exact Hl.
  - exact Hr.
  - simpl. lia.
  - unfold bind at 1. rewrite Hloop. cbv iota beta.
    destruct out as [|e out]; simpl.
    + exists w2, (new2 ++ []). split; [reflexivity|]. split.
      * eapply step_trans; eassumption.
      * rewrite app_nil_r. exact Hev2.
    + destruct (step_sink_call kmin w2 (e :: out)) as (w3 & Hcall & Hstep3 & _).
      exists w3, ([EvUpdate (e :: out)] ++ new2 ++ []).
      split; [exact Hcall|]. split.
      * eapply step_trans; [|exact Hstep3]. eapply step_trans; eassumption.
      * rewrite app_nil_r. simpl. exact Hev2.
Qed.

Lemma skipn_nth_error {A : Type} (l : list A) :
  forall i x, nth_error l i = Some x -> skipn i l = x :: skipn (S i) l.
Proof.
  induction l as [|y l IH]; intros [|i] x H; try discriminate.
  - injection H as ->. reflexivity.
  - simpl in H. rewrite skipn_cons. apply IH. exact H.
Qed.

(** The walk of the dirty list from position [i], when the list does not
    grow under it. *)
Lemma detect_runs_ok kmin fuel :
  forall i last_light sequential_lights w,
    length (dirty_lights w) - i < fuel ->
    (forall light,
       In light (skipn i (dirty_lights w)) \/ In light sequential_lights ->
       has_callback w light) ->
    (forall light, last_light = Some light -> In light sequential_lights) ->
    kmin <= clock_reads w ->
    exists w' out new,
      detect_runs self fuel i last_light sequential_lights w = (w', Ok out) /\
      step kmin w w' new /\
      (forall light,
         In light (skipn i (dirty_lights w)) \/ In light sequential_lights <->
         In light (evaluated new) \/ In light out).
Proof.
  induction fuel as [|fuel IH]; intros i last_light seq w Hfuel Hcb Hlast Hr;
    [lia|].
  simpl detect_runs. unfold bind at 1. unfold get_dirty_lights at 1.
  cbv iota beta.
  destruct (nth_error (dirty_lights w) i) as [light|] eqn:Hnth.
  2:{ apply nth_error_None in Hnth.
      exists w, seq, []. split; [reflexivity|]. split; [apply step_refl|].
      intros l. rewrite skipn_all2 by exact Hnth. simpl. tauto. }
  assert (Hlen : i < length (dirty_lights w))
    by (apply nth_error_Some; congruence).
  rewrite (skipn_nth_error _ _ _ Hnth) in Hcb |- *.
  destruct (match last_light with
            | Some l => Nat.eqb light l
            | None => false
            end) eqn:Hdup.
  { destruct last_light as [l|]; [|discriminate].
    apply Nat.eqb_eq in Hdup. subst l.
    destruct (IH (S i) (Some light) seq w)
      as (w' & out & new & Hd & Hstep & Hin);
      [lia|intros l Hl; apply Hcb; simpl; tauto|exact Hlast|exact Hr|].
    exists w', out, new. split; [exact Hd|]. split; [exact Hstep|].
    intros l. rewrite <- Hin. simpl. split; [|tauto].
    intros [[<-|H]|H]; [|tauto|tauto]. right. apply Hlast. reflexivity. }
  destruct (is_empty seq) eqn:Hempty.
  { destruct seq; [|discriminate].
    destruct (IH (S i) (Some light) [light] w)
      as (w' & out & new & Hd & Hstep & Hin).
    - lia.
    - intros l Hl. apply Hcb. simpl in *. tauto.
    - intros l [= <-]. left. reflexivity.
    - exact Hr.
    - exists w', out, new. split; [exact Hd|]. split; [exact Hstep|].
      intros l. rewrite <- Hin. simpl. tauto. }
  destruct (is_sequential_function self (last seq light) light).
  { destruct (IH (S i) (Some light) (seq ++ [light]) w)
      as (w' & out & new & Hd & Hstep & Hin).
    - lia.
    - intros l Hl. apply Hcb. rewrite in_app_iff in Hl. simpl in *. tauto.
    - intros l [= <-]. apply in_or_app. right. left. reflexivity.
    - exact Hr.
    - exists w', out, new. split; [exact Hd|]. split; [exact Hstep|].
      intros l. rewrite <- Hin, in_app_iff. simpl. tauto. }
  destruct (send_update_batch_ok kmin seq w)
    as (w1 & new1 & Hflush & Hstep1 & Hev1);
    [intros l Hl; apply Hcb; tauto|exact Hr|].
  unfold bind at 1. rewrite Hflush. cbv iota beta.
  pose proof (step_dirty _ _ _ _ _ Hstep1) as Hd1.
  destruct (IH (S i) (Some light) [light] w1)
    as (w' & out & new & Hd & Hstep & Hin).
  + rewrite Hd1. lia.
  + rewrite Hd1. intros l Hl. apply (step_callbacks _ _ _ _ _ Hstep1).
    apply Hcb. simpl in *. tauto.
  + intros l [= <-]. left. reflexivity.
  + pose proof (step_reads _ _ _ _ _ Hstep1). lia.
  + exists w', out, (new ++ new1). split; [exact Hd|]. split.
    * eapply step_trans; eassumption.
    * intros l. rewrite evaluated_app, in_app_iff, Hev1.
      specialize (Hin l). rewrite Hd1 in Hin. simpl in *. tauto.
Qed.

(** More fuel does not change a walk that ended. *)
Lemma detect_runs_more_fuel fuel :
  forall fuel' i last_light sequential_lights w w' out,
    fuel <= fuel' ->
    detect_runs self fuel i last_light sequential_lights w = (w', Ok out) ->
    detect_runs self fuel' i last_light sequential_lights w = (w', Ok out).
Proof.
  induction fuel as [|fuel IH];
    intros fuel' i last_light seq w w' out Hle H; [discriminate|].
  destruct fuel' as [|fuel']; [lia|].
  simpl detect_runs in *. unfold bind at 1 in H. unfold bind at 1.
  unfold get_dirty_lights at 1 in H. unfold get_dirty_lights at 1.
  cbv iota beta in *.
  destruct (nth_error (dirty_lights w) i) as [light|]; [|exact H].
  destruct (match last_light with
            | Some l => Nat.eqb light l
            | None => false
            end); [apply IH; [lia|exact H]|].
  destruct (is_empty seq); [apply IH; [lia|exact H]|].
  destruct (is_sequential_function self (last seq light) light);
    [apply IH; [lia|exact H]|].
  unfold bind at 1 in H. unfold bind at 1.
  destruct (_send_update_batch self seq w) as [w1 [u|e]]; [|discriminate].
  apply IH; [lia|exact H].
Qed.

Lemma promote_due_ok q :
  forall w, exists w' j,
    promote_due self q w = (w', Ok tt) /\ promoted self q w w' j.
Proof.
  induction q as [|[due light] q IH]; intros w.
  - exists w, 0. split; [reflexivity|]. constructor; simpl; auto.
    + symmetry. apply app_nil_r.
    + lia.
    + congruence.
    + intros i d l Hi. lia.
    + intros d l H. discriminate.
  - simpl promote_due. unfold bind at 1. unfold get_time at 1. cbv iota beta.
    destruct (Qle_bool due (clock self (clock_reads w))) eqn:Hdue.
    + unfold bind at 1. unfold get_dirty_lights at 1. cbv iota beta.
      unfold bind at 1. unfold set_dirty_lights at 1. cbv iota beta.
      unfold bind at 1. unfold set_dirty_schedule at 1. cbv iota beta.
      simpl.
      match goal with
      | |- context [promote_due self q ?w2] =>
          destruct (IH w2) as (w' & j & Hp & [B D Sc L T R R1 Du St])
      end.
      simpl in *.
      exists w', (S j). split; [exact Hp|]. constructor; simpl.
      * lia.
      * rewrite D, <- app_assoc. reflexivity.
      * rewrite Sc. destruct j; reflexivity.
      * exact L.
      * exact T.
      * lia.
      * intros _. lia.
      * intros i d l Hi Hn. destruct i as [|i]; simpl in Hn.
        -- injection Hn as <- <-. rewrite Nat.add_0_r.
           apply Qle_bool_iff. exact Hdue.
        -- replace (clock_reads w + S i) with (S (clock_reads w + i)) by lia.
           apply (Du i d l); [lia|exact Hn].
      * intros d l Hn.
        replace (clock_reads w + S j) with (S (clock_reads w + j)) by lia.
        apply (St d l). exact Hn.
    + eexists _, 0. split; [reflexivity|]. constructor; simpl; auto.
      * lia.
      * symmetry. apply app_nil_r.
      * lia.
      * intros i d l Hi. lia.
      * intros d l [= <- <-]. rewrite Nat.add_0_r. intro H.
        apply Qle_bool_iff in H. congruence.
Qed.

Lemma In_firstn {A : Type} (x : A) n l : In x (firstn n l) -> In x l.
Proof.
  intro H. rewrite <- (firstn_skipn n l). apply in_or_app. left. exact H.
Qed.

Lemma In_skipn {A : Type} (x : A) n l : In x (skipn n l) -> In x l.
Proof.
  intro H. rewrite <- (firstn_skipn n l). apply in_or_app. right. exact H.
Qed.

Lemma if_same {A : Type} (c : bool) (x : A) : (if c then x else x) = x.
Proof. destruct c; reflexivity. Qed.

Lemma send_updates_iteration_ok fuel w :
  callbacks_set w ->
  length (dirty_lights w) + length (dirty_schedule w) < fuel ->
  exists w' j new,
    _send_updates_iteration self fuel w = (w', Ok tt) /\
    ticked self w w' j new.
Proof.
  intros Hset Hfuel. unfold _send_updates_iteration.
  unfold bind at 1. unfold get_dirty_schedule at 1. cbv iota beta.
  unfold bind at 1. cbv zeta. rewrite if_same. unfold ret at 1. cbv iota beta.
  destruct (promote_due_ok (dirty_schedule w) w)
    as (w1 & j & Hprom & [B D Sc L T R R1 Du St]).
  unfold bind at 1. rewrite Hprom. cbv iota beta.
  unfold bind at 1. unfold get_dirty_lights at 1. cbv iota beta.
  unfold bind at 1. cbv zeta. rewrite if_same. unfold ret at 1. cbv iota beta.
  assert (Hsched1 : dirty_schedule w1 = skipn j (dirty_schedule w))
    by (rewrite Sc; destruct j; reflexivity).
  assert (Hcb1 : forall l, In l (dirty_lights w1) -> has_callback w1 l).
  { intros l Hl. unfold has_callback. rewrite L. apply Hset.
    rewrite D in Hl. apply in_app_or in Hl. destruct Hl as [Hl|Hl]; [auto|].
    right. rewrite <- firstn_map in Hl. eapply In_firstn. exact Hl. }
  destruct (detect_runs_ok (clock_reads w + j) fuel 0 None [] w1)
    as (w2 & out & new2 & Hdet & Hstep2 & Hin2).
  { rewrite D, length_app, length_map, length_firstn. lia. }
  { intros l [Hl|[]]. apply Hcb1. exact Hl. }
  { intros l H. discriminate. }
  { exact R. }
  simpl skipn in Hin2.
  unfold bind at 1. rewrite Hdet. cbv iota beta.
  assert (Hflush : exists w3 new3,
            (if negb (is_empty out) then _send_update_batch self out else ret tt)
              w2 = (w3, Ok tt) /\
            step (clock_reads w + j) w2 w3 new3 /\ evaluated new3 = out).
  { destruct out as [|l out]; simpl.
    - exists w2, []. split; [reflexivity|]. split; [apply step_refl|reflexivity].
    - apply send_update_batch_ok.
      + intros l' Hl'. apply (step_callbacks _ _ _ _ _ Hstep2). apply Hcb1.
        destruct (proj2 (Hin2 l') (or_intror Hl')) as [H|[]]. exact H.
      + pose proof (step_reads _ _ _ _ _ Hstep2). lia. }
  destruct Hflush as (w3 & new3 & Hflush & Hstep3 & Hev3).
  unfold bind at 1. rewrite Hflush. cbv iota beta.
  pose proof (step_trans _ _ _ _ _ _ Hstep2 Hstep3) as [T3 S3 D3 R3 C3 M3].
  eexists _, j, (new3 ++ new2). split; [reflexivity|].
  constructor; simpl.
  - exact B.
  - rewrite T3, T. reflexivity.
  - reflexivity.
  - rewrite S3, Hsched1. reflexivity.
  - intros l. rewrite evaluated_app, in_app_iff, Hev3.
    rewrite <- (Hin2 l), D, in_app_iff. simpl. tauto.
  - exact M3.
  - exact Du.
  - exact St.
  - lia.
  - intro Hq. specialize (R1 Hq). lia.
  - intros l Hl. apply C3. unfold has_callback. rewrite L. exact Hl.
Qed.

Lemma send_updates_iteration_more_fuel fuel fuel' w w' :
  fuel <= fuel' ->
  _send_updates_iteration self fuel w = (w', Ok tt) ->
  _send_updates_iteration self fuel' w = (w', Ok tt).
Proof.
  intros Hle H. unfold _send_updates_iteration, bind in *.
  unfold get_dirty_schedule at 1 in H. unfold get_dirty_schedule at 1.
  cbv iota beta zeta in *. rewrite if_same in *. unfold ret at 1 in H.
  unfold ret at 1. cbv iota beta in *.
  destruct (promote_due self (dirty_schedule w) w) as [w1 [u|e]];
    [|discriminate].
  unfold get_dirty_lights at 1 in H. unfold get_dirty_lights at 1.
  cbv iota beta in *. rewrite if_same in *. unfold ret at 1 in H.
  unfold ret at 1. cbv iota beta in *.
  destruct (detect_runs self fuel 0 None [] w1) as [w2 [out|e]] eqn:Hd;
    [|discriminate].
  rewrite (detect_runs_more_fuel _ _ _ _ _ _ _ _ Hle Hd). exact H.
Qed.

Lemma ticked_callbacks_set w w' j new :
  callbacks_set w -> ticked self w w' j new -> callbacks_set w'.
Proof.
  intros Hset [B T D Sc E M Du St R R1 C] l Hl.
  rewrite D, Sc, map_app, in_app_iff in Hl.
  destruct Hl as [[]|[Hl|Hl]].
  - apply C, Hset. right. rewrite <- skipn_map in Hl. eapply In_skipn. exact Hl.
  - apply in_map_iff in Hl. destruct Hl as ([due l'] & <- & Hl).
    apply scheduled_evaluated in Hl. apply C, Hset. apply E in Hl.
    destruct Hl as [Hl|Hl]; [auto|]. right.
    rewrite <- firstn_map in Hl. eapply In_firstn. exact Hl.
Qed.

Lemma set_fade_ok light cb w :
  exists w',
    set_fade light cb w = (w', Ok tt) /\
    trace w' = trace w /\ dirty_schedule w' = dirty_schedule w /\
    clock_reads w' = clock_reads w /\
    dirty_lights w' = dirty_lights w ++ [light] /\
    has_callback w' light /\
    (forall l, has_callback w l -> has_callback w' l).
Proof.
  eexists. split; [reflexivity|]. simpl. repeat (split; [reflexivity|]).
  unfold has_callback. simpl. split.
  - rewrite !Nat.eqb_refl. simpl. discriminate.
  - intros l Hl. destruct (Nat.eqb l light) eqn:E; [|exact Hl].
    simpl. rewrite Nat.eqb_refl. discriminate.
Qed.

Lemma do_requests_ok rs :
  forall w, exists w',
    do_requests rs w = (w', Ok tt) /\
    trace w' = trace w /\ dirty_schedule w' = dirty_schedule w /\
    clock_reads w' = clock_reads w /\
    (callbacks_set w -> callbacks_set w').
Proof.
  induction rs as [|[light cb] rs IH]; intros w.
  - exists w. simpl. auto.
  - simpl do_requests. unfold bind at 1.
    destruct (set_fade_ok light cb w)
      as (w1 & Hsf & Ht1 & Hs1 & Hr1 & Hd1 & Hcb1 & Hc1).
    rewrite Hsf. cbv iota beta.
    destruct (IH w1) as (w' & Hd & Ht & Hs & Hr & Hc).
    exists w'. split; [exact Hd|].
    split; [congruence|]. split; [congruence|]. split; [congruence|].
    intro Hset. apply Hc. intros l Hl.
    rewrite Hd1, Hs1, in_app_iff in Hl. simpl in Hl.
    destruct Hl as [[Hl|[<-|[]]]|Hl]; auto.
Qed.

Lemma first_requests_S requests m :
  first_requests requests (S m)
  = requests 0 :: first_requests (fun k => requests (S k)) m.
Proof.
  unfold first_requests. simpl. f_equal.
  rewrite <- seq_shift, map_map. reflexivity.
Qed.

(** The clock never goes back. *)
Hypothesis clock_monotone : monotone (clock self).

Lemma all_due_later (q : list (Q * ref)) :
  unbounded (clock self) ->
  exists K, forall d l, In (d, l) q -> (d <= clock self K)%Q.
Proof.
  intro Hunb. induction q as [|[d0 l0] q [K1 IH]].
  - exists 0. intros d l [].
  - destruct (Hunb d0) as [k0 Hk0]. exists (Nat.max K1 k0).
    intros d l [H|H].
    + injection H as <- <-. eapply Qle_trans; [exact Hk0|].
      apply clock_monotone. lia.
    + eapply Qle_trans; [apply (IH d l H)|]. apply clock_monotone. lia.
Qed.

(** An entry of the schedule is promoted and its light evaluated, at a
    time not before it is due, once the clock has passed the due times of
    the entries up to it. *)
Lemma scheduled_entry_evaluated K n :
  forall w pre due light post requests,
    callbacks_set w ->
    dirty_schedule w = pre ++ (due, light) :: post ->
    (forall d l, In (d, l) (pre ++ [(due, light)]) -> (d <= clock self K)%Q) ->
    K <= clock_reads w + n ->
    exists m fuel0 w' new t r,
      (forall fuel,
         fuel0 <= fuel ->
         _send_updates self fuel (first_requests requests m) w = (w', Ok tt)) /\
      trace w' = new ++ trace w /\
      In (EvEvaluate light t r) new /\ (due <= t)%Q /\ callbacks_set w'.
Proof.
  induction n as [|n IH]; intros w pre due light post requests Hset Hq HK Hn.
  - (* the clock has passed [K]: the entry is promoted now *)
    destruct (send_updates_iteration_ok
                (S (length (dirty_lights w) + length (dirty_schedule w))) w
                Hset (Nat.lt_succ_diag_r _))
      as (w1 & j & new1 & Hit & Ht).
    destruct (do_requests_ok (requests 0) w1) as (w2 & Hdo & Ht2 & _ & _ & Hc2).
    assert (Hj : length pre < j).
    { destruct (Nat.lt_ge_cases (length pre) j) as [H|H]; [exact H|exfalso].
      destruct (nth_error (dirty_schedule w) j) as [[d l]|] eqn:Hnth.
      - apply (ticked_stop _ _ _ _ _ Ht d l Hnth).
        eapply Qle_trans; [|apply clock_monotone with (i := K); lia].
        apply (HK d l). rewrite Hq in Hnth.
        destruct (Nat.eq_dec j (length pre)) as [->|Hne].
        + rewrite nth_error_app2, Nat.sub_diag in Hnth by lia.
          simpl in Hnth. injection Hnth as <- <-. apply in_or_app. right.
          left. reflexivity.
        + rewrite nth_error_app1 in Hnth by lia.
          apply in_or_app. left. eapply nth_error_In. exact Hnth.
      - apply nth_error_None in Hnth. rewrite Hq, length_app in Hnth.
        simpl in Hnth. lia. }
    exists 1, (S (length (dirty_lights w) + length (dirty_schedule w))), w2,
      new1.
    assert (Hnth : nth_error (dirty_schedule w) (length pre) = Some (due, light)).
    { rewrite Hq, nth_error_app2, Nat.sub_diag by lia. reflexivity. }
    assert (Hev : In light (evaluated new1)).
    { apply (ticked_evaluated _ _ _ _ _ Ht). right.
      apply in_map_iff. exists (due, light). split; [reflexivity|].
      apply nth_error_In with (n := length pre). rewrite nth_error_firstn.
      destruct (Nat.ltb_spec (length pre) j) as [_|H]; [exact Hnth|lia]. }
    apply evaluated_In in Hev. destruct Hev as (t & r & Hev).
    exists t, r. split.
    { intros fuel Hf. unfold first_requests. simpl. unfold bind at 1.
      rewrite (send_updates_iteration_more_fuel _ _ _ _ Hf Hit).
      cbv iota beta. unfold bind at 1. rewrite Hdo. reflexivity. }
    split; [rewrite Ht2; apply (ticked_trace _ _ _ _ _ Ht)|].
    split; [exact Hev|].
    destruct (ticked_times _ _ _ _ _ Ht light t r Hev) as (k & Hk & ->).
    split; [|apply Hc2; eapply ticked_callbacks_set; eassumption].
    eapply Qle_trans;
      [apply (ticked_due _ _ _ _ _ Ht (length pre) due light Hj Hnth)|].
    apply clock_monotone. lia.
  - destruct (send_updates_iteration_ok
                (S (length (dirty_lights w) + length (dirty_schedule w))) w
                Hset (Nat.lt_succ_diag_r _))
      as (w1 & j & new1 & Hit & Ht).
    destruct (do_requests_ok (requests 0) w1) as (w2 & Hdo & Ht2 & Hs2 & Hr2 & Hc2).
    assert (Hnth : nth_error (dirty_schedule w) (length pre) = Some (due, light)).
    { rewrite Hq, nth_error_app2, Nat.sub_diag by lia. reflexivity. }
    destruct (Nat.lt_ge_cases (length pre) j) as [Hj|Hj].
    + (* promoted in this iteration *)
      exists 1, (S (length (dirty_lights w) + length (dirty_schedule w))), w2,
        new1.
      assert (Hev : In light (evaluated new1)).
      { apply (ticked_evaluated _ _ _ _ _ Ht). right.
        apply in_map_iff. exists (due, light). split; [reflexivity|].
        apply nth_error_In with (n := length pre). rewrite nth_error_firstn.
        destruct (Nat.ltb_spec (length pre) j) as [_|H]; [exact Hnth|lia]. }
      apply evaluated_In in Hev. destruct Hev as (t & r & Hev).
      exists t, r. split.
      { intros fuel Hf. unfold first_requests. simpl. unfold bind at 1.
        rewrite (send_updates_iteration_more_fuel _ _ _ _ Hf Hit).
        cbv iota beta. unfold bind at 1. rewrite Hdo. reflexivity. }
      split; [rewrite Ht2; apply (ticked_trace _ _ _ _ _ Ht)|].
      split; [exact Hev|].
      destruct (ticked_times _ _ _ _ _ Ht light t r Hev) as (k & Hk & ->).
      split; [|apply Hc2; eapply ticked_callbacks_set; eassumption].
      eapply Qle_trans;
        [apply (ticked_due _ _ _ _ _ Ht (length pre) due light Hj Hnth)|].
      apply clock_monotone. lia.
    + (* still in the schedule, behind fewer entries, and the clock was read *)
      assert (Hq2 : dirty_schedule w2
                    = skipn j pre ++ (due, light) :: (post ++ scheduled new1)).
      { rewrite Hs2, (ticked_schedule _ _ _ _ _ Ht), Hq, skipn_app.
        replace (j - length pre) with 0 by lia. simpl.
        rewrite <- app_assoc. reflexivity. }
      assert (Hread : clock_reads w < clock_reads w2).
      { rewrite Hr2. apply (ticked_read _ _ _ _ _ Ht). rewrite Hq.
        destruct pre; discriminate. }
      destruct (IH w2 (skipn j pre) due light (post ++ scheduled new1)
                   (fun k => requests (S k)))
        as (m & fuel0 & w' & new & t & r & Hrun & Htr & Hev & Hdue & Hset').
      * apply Hc2. eapply ticked_callbacks_set; eassumption.
      * exact Hq2.
      * intros d l Hin. apply (HK d l). apply in_app_or in Hin.
        apply in_or_app. destruct Hin as [Hin|Hin]; [left|right; exact Hin].
        eapply In_skipn. exact Hin.
      * lia.
      * exists (S m),
          (Nat.max (S (length (dirty_lights w) + length (dirty_schedule w)))
                   fuel0),
          w', (new ++ new1), t, r.
        split.
        { intros fuel Hf.
          assert (Hf1 : S (length (dirty_lights w) + length (dirty_schedule w))
                        <= fuel) by lia.
          rewrite first_requests_S. simpl. unfold bind at 1.
          rewrite (send_updates_iteration_more_fuel _ _ _ _ Hf1 Hit).
          cbv iota beta. unfold bind at 1. rewrite Hdo. apply Hrun. lia. }
        split.
        { rewrite Htr, Ht2, (ticked_trace _ _ _ _ _ Ht). apply app_assoc. }
        split; [apply in_or_app; left; exact Hev|auto].
Qed.

End NoLostUpdates.

Lemma bus_clock_monotone max_batch_size : monotone (clock (bus max_batch_size)).
Proof.
  intros i j Hij. simpl. rewrite <- Zle_Qle. lia.
Qed.

Lemma bus_clock_unbounded max_batch_size : unbounded (clock (bus max_batch_size)).
Proof.
  intros q. exists (Z.to_nat (Z.max 0 (Qceiling q))). simpl.
  eapply Qle_trans; [apply Qle_ceiling|]. rewrite <- Zle_Qle. lia.
Qed.

(** X14 (no lost updates when the sink does not suspend).  What holds of
    C2.  Assume that the write sink accepts every batch
    and does not suspend the loop (no [set_fade] is made during a call of
    the sink), that the clock never goes back and passes every time, and
    that every dirty or scheduled light has a callback (it got there
    through [set_fade]).  Then, from any such state:
    - the next iteration of the loop returns, having evaluated every light
      marked dirty, at a reading of the clock made in that iteration, and
      leaves the dirty list empty;
    - the schedule it leaves is the part of the schedule not promoted
      followed by one entry for each evaluation that reported the fade
      incomplete, due at the time of the evaluation plus the reported
      duration, and by none for an evaluation that reported completion;
    - every light in the schedule is evaluated again, within finitely many
      iterations and whatever the requests made during the sleeps, at a
      time not before the entry is due;
    and the state reached satisfies the assumption again, so that the
    three facts repeat from evaluation to evaluation until one reports
    completion. *)
Theorem no_lost_updates_when_sink_does_not_suspend self requests w :
  (forall k b, update_callback self k b = Some []) ->
  monotone (clock self) ->
  unbounded (clock self) ->
  callbacks_set w ->
  (exists fuel0 w' j new,
     (forall fuel, fuel0 <= fuel ->
                   _send_updates_iteration self fuel w = (w', Ok tt)) /\
     trace w' = new ++ trace w /\
     (forall light,
        In light (dirty_lights w) ->
        exists t r k,
          In (EvEvaluate light t r) new /\
          t = clock self k /\ clock_reads w <= k) /\
     dirty_lights w' = [] /\
     dirty_schedule w' = skipn j (dirty_schedule w) ++ scheduled new /\
     callbacks_set w') /\
  (forall due light,
     In (due, light) (dirty_schedule w) ->
     exists n fuel0 w' new t r,
       (forall fuel,
          fuel0 <= fuel ->
          _send_updates self fuel (first_requests requests n) w = (w', Ok tt)) /\
       trace w' = new ++ trace w /\
       In (EvEvaluate light t r) new /\ (due <= t)%Q /\
       callbacks_set w').
Proof.
  intros Hsink Hmono Hunb Hset. split.
  - destruct (send_updates_iteration_ok self Hsink
                (S (length (dirty_lights w) + length (dirty_schedule w))) w
                Hset (Nat.lt_succ_diag_r _))
      as (w' & j & new & Hit & Ht).
    exists (S (length (dirty_lights w) + length (dirty_schedule w))), w', j, new.
    split.
    { intros fuel Hf.
      apply (send_updates_iteration_more_fuel self _ fuel w w' Hf Hit). }
    split; [apply (ticked_trace _ _ _ _ _ Ht)|]. split.
    { intros light Hl.
      assert (Hev : In light (evaluated new))
        by (apply (ticked_evaluated _ _ _ _ _ Ht); left; exact Hl).
      apply evaluated_In in Hev. destruct Hev as (t & r & Hev).
      destruct (ticked_times _ _ _ _ _ Ht light t r Hev) as (k & Hk & ->).
      exists (clock self k), r, k. split; [exact Hev|]. split; [reflexivity|].
      lia. }
    split; [apply (ticked_dirty _ _ _ _ _ Ht)|].
    split; [apply (ticked_schedule _ _ _ _ _ Ht)|].
    eapply ticked_callbacks_set; eassumption.
  - intros due light Hin. apply in_split in Hin.
    destruct Hin as (pre & post & Hq).
    destruct (all_due_later self Hmono (pre ++ [(due, light)]) Hunb) as [K HK].
    apply (scheduled_entry_evaluated self Hsink Hmono K K w pre due light post
             requests Hset Hq HK).
    lia.
Qed.

Lemma fading_and_dirty_callbacks_set : callbacks_set fading_and_dirty.
Proof.
  intros light Hl. vm_compute in Hl. unfold has_callback.
  destruct Hl as [[<-|[]]|[<-|[<-|[]]]]; vm_compute; discriminate.
Qed.

(** The assumptions of the theorem hold of the bus, with light 3 dirty and
    lights 1 and 2 scheduled. *)
Lemma no_lost_updates_on_the_bus :
  (exists fuel0 w' j new,
     (forall fuel, fuel0 <= fuel ->
                   _send_updates_iteration (bus 8) fuel fading_and_dirty
                   = (w', Ok tt)) /\
     trace w' = new ++ trace fading_and_dirty /\
     (forall light,
        In light (dirty_lights fading_and_dirty) ->
        exists t r k,
          In (EvEvaluate light t r) new /\
          t = clock (bus 8) k /\ clock_reads fading_and_dirty <= k) /\
     dirty_lights w' = [] /\
     dirty_schedule w'
     = skipn j (dirty_schedule fading_and_dirty) ++ scheduled new /\
     callbacks_set w') /\
  (forall due light,
     In (due, light) (dirty_schedule fading_and_dirty) ->
     exists n fuel0 w' new t r,
       (forall fuel,
          fuel0 <= fuel ->
          _send_updates (bus 8) fuel (first_requests (fun _ => []) n)
                        fading_and_dirty = (w', Ok tt)) /\
       trace w' = new ++ trace fading_and_dirty /\
       In (EvEvaluate light t r) new /\ (due <= t)%Q /\
       callbacks_set w').
Proof.
  apply (no_lost_updates_when_sink_does_not_suspend (bus 8) (fun _ => [])
                                                    fading_and_dirty).
  - reflexivity.
  - apply bus_clock_monotone.
  - apply bus_clock_unbounded.
  - apply fading_and_dirty_callbacks_set.
Defined.

Lemma returns_after {A : Type} (m : M A) w a :
  snd (m w) = Ok a -> m w = (after m w, Ok a).
Proof. unfold after. destruct (m w). simpl. intros ->. reflexivity. Qed.

(** With nothing dirty and nothing scheduled an iteration does nothing. *)
Lemma idle_iteration self fuel w :
  dirty_lights w = [] -> dirty_schedule w = [] ->
  _send_updates_iteration self (S fuel) w = (w, Ok tt).
Proof.
  destruct w as [d q h c k tr]. simpl. intros -> ->. reflexivity.
Qed.

Lemma idle_forever self fuel n w :
  dirty_lights w = [] -> dirty_schedule w = [] ->
  _send_updates self (S fuel) (repeat [] n) w = (w, Ok tt).
Proof.
  intros Hd Hq. induction n as [|n IH]; [reflexivity|].
  simpl. unfold bind at 1. rewrite (idle_iteration self fuel w Hd Hq).
  cbv iota beta. unfold bind at 1. simpl. exact IH.
Qed.

(** C2 fails on the code.  The sink of [suspending_bus] suspends the loop
    during its first call, and another task then calls [set_fade] on
    light 9: light 9 is appended to the dirty list.  With light 1 alone
    dirty, that call is the flush of the last run, after the [for] loop:
    [self.dirty_lights.clear()] then drops the marking of light 9, and
    light 9, with its callback stored, is evaluated in no later iteration.
    When the same call of the sink is a flush inside the [for] loop (lights
    1 and 3 dirty), the loop meets light 9 and evaluates it in the same
    iteration. *)
Theorem marking_during_last_flush_is_lost :
  (forall n,
     let w := after (_send_updates suspending_bus some_fuel
                                   ([] :: repeat [] n)) one_dirty in
     snd (_send_updates suspending_bus some_fuel ([] :: repeat [] n) one_dirty)
     = Ok tt /\
     match _callback (lights w 9) with
     | Some cb => cb 100%Z 0%Q = (1%Q, 0%Z, true)
     | None => False
     end /\
     _last_brightness (lights w 9) = None /\
     evaluated (trace w) = [1] /\
     written (trace w) = [[(1, 1%Q, 0%Z)]] /\
     dirty_lights w = [] /\ dirty_schedule w = []) /\
  evaluated (trace (after (_send_updates_iteration suspending_bus some_fuel)
                          one_and_three_dirty))
  = [1; 3; 9].
Proof.
  split; [|reflexivity].
  intros n.
  assert (Hrun : _send_updates suspending_bus some_fuel ([] :: repeat [] n)
                               one_dirty
                 = (after (_send_updates_iteration suspending_bus some_fuel)
                          one_dirty, Ok tt)).
  { change some_fuel with (S 99). simpl _send_updates. unfold bind at 1.
    rewrite (returns_after (_send_updates_iteration suspending_bus (S 99))
                           one_dirty tt) by (vm_compute; reflexivity).
    cbv iota beta. unfold bind at 1. simpl do_requests. unfold ret at 1.
    cbv iota beta. apply idle_forever; vm_compute; reflexivity. }
  unfold after. cbv zeta. rewrite Hrun. vm_compute. repeat split; reflexivity.
Qed.

(** The scenario of the specification: an evaluation at time 0 reports
    [(1/2, 1000 ms, not done)]; the light is scheduled at 1 s, promoted at
    the iteration where the clock reads 1 s and evaluated at the next
    reading of the clock. *)
Example rescheduled_after_remaining_duration :
  let w := after (set_fade 5 (cb_const (1 # 2) 1000 false)) fresh in
  let w1 := after (_send_updates_iteration (bus 8) some_fuel) w in
  let w2 := after (_send_updates_iteration (bus 8) some_fuel) w1 in
  dirty_schedule w1 = [((0 + inject_Z 1000 / 1000)%Q, 5)] /\
  history w1 = [EvCallback 5 100 0 (1 # 2, 1000%Z, false);
                EvEvaluate 5 0 (1 # 2, 1000%Z, false);
                EvUpdate [(5, 1 # 2, 1000%Z)]] /\
  history w2 = history w1
               ++ [EvCallback 5 100 2 (1 # 2, 1000%Z, false);
                   EvEvaluate 5 2 (1 # 2, 1000%Z, false);
                   EvUpdate [(5, 1 # 2, 1000%Z)]].
Proof. vm_compute. repeat split; reflexivity. Qed.

(** ** Rules for the further properties *)

Lemma quiet_ret {A : Type} (a : A) : quiet (ret a).
Proof. intro w. split; reflexivity. Qed.

Lemma quiet_bind {A B : Type} (m : M A) (k : A -> M B) :
  quiet m -> (forall a, quiet (k a)) -> quiet (bind m k).
Proof.
  intros Hm Hk w. unfold bind. destruct (Hm w) as [Ht Hq].
  destruct (m w) as [w' [a|e]]; simpl in *; [|auto].
  destruct (Hk a w') as [Ht' Hq']. split; congruence.
Qed.

Lemma quiet_get_time self : quiet (get_time self).
Proof. intro w. split; reflexivity. Qed.

Lemma quiet_next_sink_call : quiet next_sink_call.
Proof. intro w. split; reflexivity. Qed.

Lemma quiet_get_dirty_lights : quiet get_dirty_lights.
Proof. intro w. split; reflexivity. Qed.

Lemma quiet_set_dirty_lights l : quiet (set_dirty_lights l).
Proof. intro w. split; reflexivity. Qed.

Lemma quiet_set_fade light cb : quiet (set_fade light cb).
Proof. intro w. split; reflexivity. Qed.

Lemma quiet_do_requests rs : quiet (do_requests rs).
Proof.
  induction rs as [|[light cb] rs IH]; [apply quiet_ret|].
  simpl. apply quiet_bind; [apply quiet_set_fade|auto].
Qed.

Lemma hoare_since_quiet {A : Type} (m : M A) base P :
  quiet m -> hoare (since base P) m (fun _ => since base P) (since base P).
Proof.
  intros Hq w (new & Ht & HP). destruct (Hq w) as [Ht' Hq'].
  destruct (m w) as [w' [a|e]]; simpl in *; exists new;
    rewrite Ht', Hq'; auto.
Qed.

Lemma evaluate_shape light t w :
  match get_fade_and_brightness light t w with
  | (w', Ok r) =>
      (exists evs, evaluation_events light t r evs /\ trace w' = evs ++ trace w)
      /\ dirty_schedule w' = dirty_schedule w
  | (w', Raise _) =>
      trace w' = trace w /\ dirty_schedule w' = dirty_schedule w
  end.
Proof.
  unfold get_fade_and_brightness, bind, load.
  destruct (truthy (_last_brightness (lights w light))) as [cached|].
  - simpl. split; [|reflexivity]. eexists. split; [left; reflexivity|reflexivity].
  - destruct (_callback (lights w light)) as [cb|]; [|split; reflexivity].
    destruct (cb (get_max_fade_ms (lights w light)) t) as [[b f] d].
    destruct d; simpl; (split; [|reflexivity]); eexists;
      (split; [right; eexists; reflexivity|reflexivity]).
Qed.

Lemma scheduled_evaluation_events light t b f d evs :
  evaluation_events light t (b, f, d) evs ->
  scheduled evs = if d then [] else [((t + inject_Z f / 1000)%Q, light)].
Proof. intros [->|[m ->]]; destruct d; reflexivity. Qed.

Lemma results_evaluation_events light t b f d evs :
  evaluation_events light t (b, f, d) evs -> results evs = [(light, b, f)].
Proof. intros [->|[m ->]]; reflexivity. Qed.

Lemma evaluated_evaluation_events light t r evs :
  evaluation_events light t r evs -> evaluated evs = [light].
Proof. intros [->|[m ->]]; reflexivity. Qed.

Lemma written_evaluation_events light t r evs :
  evaluation_events light t r evs -> written evs = [].
Proof. intros [->|[m ->]]; reflexivity. Qed.

Lemma call_update_callback_schedule self b w :
  dirty_schedule (fst (call_update_callback self b w)) = dirty_schedule w.
Proof.
  unfold call_update_callback, bind, log, next_sink_call. simpl.
  destruct (update_callback self (sink_calls w) b) as [rs|]; [|reflexivity].
  match goal with
  | |- context [do_requests rs ?w1] =>
      destruct (quiet_do_requests rs w1) as [_ H];
      destruct (do_requests rs w1) as [w2 [u|e]]
  end; exact H.
Qed.

Section FlushRule.

Variable self : PlatformBatchLightSystem.
Variable base : list event.

(** The invariant of the loop of [_send_update_batch]: the new events, the
    schedule, the accumulator, the common fade and the lights that remain. *)
Variable J :
  list event -> list (Q * ref) -> list entry -> option Z -> list ref -> Prop.

(** What is left of it when an exception is raised. *)
Variable E : list event -> list (Q * ref) -> Prop.

Hypothesis J_E : forall new q sbl c rem, J new q sbl c rem -> E new q.

Hypothesis J_append :
  forall new q sbl common light rest t b f d evs,
    J new q sbl common (light :: rest) ->
    evaluation_events light t (b, f, d) evs ->
    ((match common with Some c => c | None => f end =? f)%Z
     && (Z.of_nat (length sbl) <? max_batch_size self)%Z = true) ->
    J (evs ++ new) (q ++ scheduled evs)
      (sbl ++ [(light, b, match common with Some c => c | None => f end)])
      (Some (match common with Some c => c | None => f end)) rest.

Hypothesis J_flush :
  forall new q sbl common light rest t b f d evs,
    J new q sbl common (light :: rest) ->
    evaluation_events light t (b, f, d) evs ->
    ((match common with Some c => c | None => f end =? f)%Z
     && (Z.of_nat (length sbl) <? max_batch_size self)%Z = false) ->
    J (EvUpdate sbl :: evs ++ new) (q ++ scheduled evs)
      [(light, b, f)] (Some f) rest.

Lemma flush_loop_rule sequential_lights :
  forall sbl common t,
    hoare (since base (fun new q => J new q sbl common sequential_lights))
          (_send_update_batch_loop self sequential_lights sbl common t)
          (fun out => since base (fun new q => exists c, J new q out c []))
          (since base E).
Proof.
  induction sequential_lights as [|light rest IH];
    intros sbl common t w (new & Htr & HJ).
  - simpl. exists new. eauto.
  - simpl _send_update_batch_loop. unfold bind at 1.
    pose proof (evaluate_shape light t w) as Hs.
    destruct (get_fade_and_brightness light t w) as [w1 [[[b f] d]|e]].
    2:{ destruct Hs as [Ht Hq]. exists new. rewrite Ht, Hq.
        split; [exact Htr|]. eapply J_E. exact HJ. }
    destruct Hs as [(evs & Hev & Htr1) Hq1]. cbv iota beta.
    assert (Hs : exists w2,
               (if negb d
                then q <- get_dirty_schedule ;;
                     set_dirty_schedule
                       (q ++ [((t + inject_Z f / 1000)%Q, light)])
                else ret tt) w1 = (w2, Ok tt) /\
               trace w2 = trace w1 /\
               dirty_schedule w2 = dirty_schedule w1 ++ scheduled evs).
    { rewrite (scheduled_evaluation_events _ _ _ _ _ _ Hev).
      destruct d; simpl; eexists; (split; [reflexivity|]); simpl;
        auto using app_nil_r. }
    destruct Hs as (w2 & Hs & Htr2 & Hq2).
    unfold bind at 1. rewrite Hs. cbv iota beta.
    destruct ((match common with Some c => c | None => f end =? f)%Z
              && (Z.of_nat (length sbl) <? max_batch_size self)%Z) eqn:Hcond.
    + apply IH. exists (evs ++ new). split.
      * rewrite Htr2, Htr1, Htr. apply app_assoc.
      * rewrite Hq2, Hq1. eapply J_append; eassumption.
    + assert (HJ2 : J (EvUpdate sbl :: evs ++ new)
                      (dirty_schedule w ++ scheduled evs)
                      [(light, b, f)] (Some f) rest)
        by (eapply J_flush; eassumption).
      unfold bind at 1.
      pose proof (call_update_callback_trace self sbl w2) as Ht3.
      pose proof (call_update_callback_schedule self sbl w2) as Hq3.
      destruct (call_update_callback self sbl w2) as [w3 [u|e]];
        simpl in Ht3, Hq3.
      2:{ exists (EvUpdate sbl :: evs ++ new). split.
          - rewrite Ht3, Htr2, Htr1, Htr. simpl. rewrite app_assoc. reflexivity.
          - rewrite Hq3, Hq2, Hq1. eapply J_E. exact HJ2. }
      unfold bind at 1. unfold get_time at 1. cbv iota beta.
      apply IH. exists (EvUpdate sbl :: evs ++ new). simpl. split.
      * rewrite Ht3, Htr2, Htr1, Htr. simpl. rewrite app_assoc. reflexivity.
      * rewrite Hq3, Hq2, Hq1. exact HJ2.
Qed.

(** The flush of the run [run]. *)
Variable run : list ref.
Variable T0 T1 : list event -> list (Q * ref) -> Prop.

Hypothesis J_init : forall new q, T0 new q -> J new q [] None run.
Hypothesis J_final_empty : forall new q c, J new q [] c [] -> T1 new q.
Hypothesis J_final_write :
  forall new q e out c, J new q (e :: out) c [] ->
                        T1 (EvUpdate (e :: out) :: new) q.
Hypothesis T1_E : forall new q, T1 new q -> E new q.

Lemma flush_rule :
  hoare (since base T0) (_send_update_batch self run)
        (fun _ => since base T1) (since base E).
Proof.
  unfold _send_update_batch.
  eapply hoare_bind.
  { eapply hoare_conseq;
      [apply (hoare_since_quiet (get_time self) base T0), quiet_get_time
      |intros w H; exact H|intros ? w H; exact H|].
    intros w (new & Ht & HT). exists new. split; [exact Ht|].
    eapply J_E. apply J_init. exact HT. }
  intros t. eapply hoare_bind.
  { eapply hoare_conseq;
      [apply flush_loop_rule| |intros ? w H; exact H|intros w H; exact H].
    intros w (new & Ht & HT). exists new. auto. }
  intros out w (new & Ht & c & HJ). destruct out as [|e out]; simpl.
  - exists new. split; [exact Ht|]. eapply J_final_empty. exact HJ.
  - pose proof (call_update_callback_trace self (e :: out) w) as Ht3.
    pose proof (call_update_callback_schedule self (e :: out) w) as Hq3.
    assert (H : since base T1 (fst (call_update_callback self (e :: out) w))).
    { exists (EvUpdate (e :: out) :: new). rewrite Ht3, Hq3, Ht.
      split; [reflexivity|]. eapply J_final_write. exact HJ. }
    destruct (call_update_callback self (e :: out) w) as [w3 [u|ex]];
      simpl in H; [exact H|].
    destruct H as (new' & Ht' & HT'). exists new'. auto.
Qed.

End FlushRule.

Lemma hoare_since_trace_stable {A : Type} (m : M A) base
    (P : list event -> list (Q * ref) -> Prop) :
  trace_stable m ->
  (forall new q q', P new q -> P new q') ->
  hoare (since base P) m (fun _ => since base P) (since base P).
Proof.
  intros Hst Hany w (new & Ht & HP). specialize (Hst w).
  destruct (m w) as [w' [a|e]]; simpl in Hst; exists new; rewrite Hst;
    eauto.
Qed.

Section DetectRule.

Variable self : PlatformBatchLightSystem.
Variable base : list event.

(** What holds between two flushes, what is left of it when an exception
    is raised, and what holds of the runs. *)
Variable T E : list event -> list (Q * ref) -> Prop.
Variable R : list ref -> Prop.

Hypothesis T_E : forall new q, T new q -> E new q.

Hypothesis flush_ok :
  forall run,
    R run ->
    hoare (since base T) (_send_update_batch self run)
          (fun _ => since base T) (since base E).

Hypothesis R_single : forall light, R [light].

Hypothesis R_app :
  forall seq light,
    seq <> [] -> R seq ->
    is_sequential_function self (last seq light) light = true ->
    R (seq ++ [light]).

Lemma detect_rule fuel :
  forall i last_light sequential_lights,
    sequential_lights = [] \/ R sequential_lights ->
    hoare (since base T)
          (detect_runs self fuel i last_light sequential_lights)
          (fun out w => since base T w /\ (out = [] \/ R out))
          (since base E).
Proof.
  induction fuel as [|fuel IH]; intros i last_light seq HR.
  - apply hoare_raise. intros w (new & Ht & HT). exists new. auto.
  - simpl.
    eapply hoare_bind.
    { eapply hoare_conseq;
        [apply (hoare_since_quiet get_dirty_lights base T),
           quiet_get_dirty_lights
        |intros w H; exact H|intros ? w H; exact H|].
      intros w (new & Ht & HT). exists new. auto. }
    intros dirty. destruct (nth_error dirty i) as [light|];
      [|apply hoare_ret; auto].
    destruct (match last_light with
              | Some l => Nat.eqb light l
              | None => false
              end); [apply IH; exact HR|].
    destruct (is_empty seq) eqn:Hempty; [apply IH; right; apply R_single|].
    assert (Hne : seq <> []) by (destruct seq; [discriminate|congruence]).
    assert (HRseq : R seq) by (destruct HR; [contradiction|assumption]).
    destruct (is_sequential_function self (last seq light) light) eqn:Hseq.
    + apply IH. right. apply R_app; assumption.
    + eapply hoare_bind; [apply flush_ok; exact HRseq|]. intros u.
      apply IH. right. apply R_single.
Qed.

(** The walk of the dirty list, the flush of the run left open and the
    clearing of the list. *)
Lemma walk_rule fuel :
  hoare (since base T)
        (sequential_lights <- detect_runs self fuel 0 None [] ;;
         (if negb (is_empty sequential_lights)
          then _send_update_batch self sequential_lights
          else ret tt) ;;
         set_dirty_lights [])
        (fun _ => since base T) (since base E).
Proof.
  eapply hoare_bind; [apply detect_rule; left; reflexivity|].
  intros out. eapply hoare_bind with (R := fun _ => since base T).
  - intros w [HT HR]. destruct out as [|l out]; simpl.
    + exact HT.
    + destruct HR as [HR|HR]; [discriminate|].
      apply (flush_ok _ HR w HT).
  - intros u. eapply hoare_conseq;
      [apply (hoare_since_quiet (set_dirty_lights []) base T),
         quiet_set_dirty_lights
      |intros w H; exact H|intros ? w H; exact H|].
    intros w (new & Ht & HT). exists new. auto.
Qed.

(** For a property that does not look at the schedule. *)
Hypothesis T_any_schedule : forall new q q', T new q -> T new q'.

Lemma iteration_rule fuel :
  hoare (since base T) (_send_updates_iteration self fuel)
        (fun _ => since base T) (since base E).
Proof.
  unfold _send_updates_iteration.
  assert (HTE : forall w, since base T w -> since base E w).
  { intros w (new & Ht & HT). exists new. auto. }
  eapply hoare_bind.
  { eapply hoare_conseq;
      [apply (hoare_since_trace_stable get_dirty_schedule base T);
         [apply trace_stable_get_dirty_schedule|exact T_any_schedule]
      |intros w H; exact H|intros ? w H; exact H|exact HTE]. }
  intros q. eapply hoare_bind.
  { eapply hoare_conseq;
      [apply (hoare_since_trace_stable
                (if negb (is_empty q)
                 then let _ := sorted
                                 (fun x => (fst x + sort_function self (snd x))%Q)
                                 q in ret tt
                 else ret tt) base T);
         [destruct (negb (is_empty q)); apply trace_stable_ret
         |exact T_any_schedule]
      |intros w H; exact H|intros ? w H; exact H|exact HTE]. }
  intros u. eapply hoare_bind.
  { eapply hoare_conseq;
      [apply (hoare_since_trace_stable (promote_due self q) base T);
         [apply trace_stable_promote_due|exact T_any_schedule]
      |intros w H; exact H|intros ? w H; exact H|exact HTE]. }
  intros u'. eapply hoare_bind.
  { eapply hoare_conseq;
      [apply (hoare_since_quiet get_dirty_lights base T),
         quiet_get_dirty_lights
      |intros w H; exact H|intros ? w H; exact H|exact HTE]. }
  intros l. eapply hoare_bind.
  { eapply hoare_conseq;
      [apply (hoare_since_trace_stable
                (if negb (is_empty l)
                 then let _ := sorted (sort_function self) l in ret tt
                 else ret tt) base T);
         [destruct (negb (is_empty l)); apply trace_stable_ret
         |exact T_any_schedule]
      |intros w H; exact H|intros ? w H; exact H|exact HTE]. }
  intros u''. apply walk_rule.
Qed.

Lemma send_updates_rule fuel requests :
  hoare (since base T) (_send_updates self fuel requests)
        (fun _ => since base T) (since base E).
Proof.
  induction requests as [|rs rest IH]; simpl.
  - apply hoare_ret. auto.
  - eapply hoare_bind; [apply iteration_rule|]. intros u.
    eapply hoare_bind; [|intros u'; exact IH].
    eapply hoare_conseq;
      [apply (hoare_since_quiet (do_requests rs) base T), quiet_do_requests
      |intros w H; exact H|intros ? w H; exact H|].
    intros w (new & Ht & HT). exists new. auto.
Qed.

End DetectRule.

Lemma since_after {A : Type} (m : M A) w
    (P Q E : list event -> list (Q * ref) -> Prop) :
  hoare (since (trace w) P) m (fun _ => since (trace w) Q) (since (trace w) E) ->
  P [] (dirty_schedule w) ->
  (forall new q, Q new q -> E new q) ->
  since (trace w) E (after m w).
Proof.
  intros H HP HQE. assert (Hw : since (trace w) P w) by (exists []; auto).
  specialize (H w Hw). unfold after.
  destruct (m w) as [w' [a|e]]; simpl; [|exact H].
  destruct H as (new & Ht & HQ). exists new. auto.
Qed.

Lemma since_after_ok {A : Type} (m : M A) w w' a
    (P Q E : list event -> list (Q * ref) -> Prop) :
  hoare (since (trace w) P) m (fun _ => since (trace w) Q) (since (trace w) E) ->
  P [] (dirty_schedule w) ->
  m w = (w', Ok a) ->
  since (trace w) Q w'.
Proof.
  intros H HP Hm. assert (Hw : since (trace w) P w) by (exists []; auto).
  specialize (H w Hw). rewrite Hm in H. exact H.
Qed.

(** ** Adjacency of the lights of a batch *)

Lemma chain_app_l self l1 : forall l2, chain self (l1 ++ l2) -> chain self l1.
Proof.
  induction l1 as [|a l1 IH]; intros l2 H; [exact I|].
  destruct l1 as [|b l1]; [exact I|].
  simpl in H. destruct H as [Hab H]. split; [exact Hab|].
  apply (IH l2). exact H.
Qed.

Lemma chain_app_r self l1 : forall l2, chain self (l1 ++ l2) -> chain self l2.
Proof.
  induction l1 as [|a l1 IH]; intros l2 H; [exact H|].
  apply IH. destruct l1 as [|b l1]; simpl in H.
  - destruct l2; [exact I|apply H].
  - apply H.
Qed.

Lemma chain_snoc self seq light :
  seq <> [] -> chain self seq ->
  is_sequential_function self (last seq light) light = true ->
  chain self (seq ++ [light]).
Proof.
  induction seq as [|a seq IH]; intros Hne Hc Hs; [congruence|].
  destruct seq as [|b seq].
  - simpl in *. auto.
  - change (chain self (a :: (b :: seq) ++ [light])).
    simpl in Hc. destruct Hc as [Hab Hc].
    change (is_sequential_function self a b = true /\
            chain self ((b :: seq) ++ [light])).
    split; [exact Hab|]. apply IH; [discriminate|exact Hc|exact Hs].
Qed.

Lemma no_update_in_evaluation_events light t r evs b :
  evaluation_events light t r evs -> ~ In (EvUpdate b) evs.
Proof.
  intros [->|[m ->]] H; simpl in H;
    repeat (destruct H as [H|H]; try discriminate); exact H.
Qed.

Lemma adjacency_flush self base run :
  chain self run ->
  hoare (since base
           (fun new _ =>
              forall b, In (EvUpdate b) new -> chain self (map entry_light b)))
        (_send_update_batch self run)
        (fun _ =>
           since base
             (fun new _ =>
                forall b, In (EvUpdate b) new -> chain self (map entry_light b)))
        (since base
           (fun new _ =>
              forall b, In (EvUpdate b) new -> chain self (map entry_light b))).
Proof.
  intro Hrun.
  apply (flush_rule self base
           (fun new _ sbl _ rem =>
              (forall b, In (EvUpdate b) new -> chain self (map entry_light b)) /\
              chain self (map entry_light sbl ++ rem))).
  - intros new q sbl c rem [H _]. exact H.
  - intros new q sbl common light rest t b f d evs [HT Hc] Hev _. split.
    + intros b' Hb. apply in_app_or in Hb. destruct Hb as [Hb|Hb]; [|auto].
      exfalso. eapply no_update_in_evaluation_events; eassumption.
    + rewrite map_app, <- app_assoc. exact Hc.
  - intros new q sbl common light rest t b f d evs [HT Hc] Hev _. split.
    + intros b' [Hb|Hb].
      * injection Hb as <-. eapply chain_app_l. exact Hc.
      * apply in_app_or in Hb. destruct Hb as [Hb|Hb]; [|auto].
        exfalso. eapply no_update_in_evaluation_events; eassumption.
    + eapply chain_app_r. exact Hc.
  - intros new q HT. split; [exact HT|exact Hrun].
  - intros new q c [HT _]. exact HT.
  - intros new q e out c [HT Hc] b' [Hb|Hb]; [|auto].
    injection Hb as <-. rewrite app_nil_r in Hc. exact Hc.
  - auto.
Qed.

(** X1 (adjacency containment).  In every batch handed to the write sink,
    each light is followed by a light sequential to it according to
    [is_sequential_function]: the batches are cut out of runs.  This holds
    of the flush of a run in which each light is followed by a sequential
    one, and of any number of iterations of the update loop, whatever the
    sink does and however the computation ends. *)
Theorem batches_are_adjacent self fuel requests run w :
  (chain self run ->
   exists new,
     trace (after (_send_update_batch self run) w) = new ++ trace w /\
     forall b, In (EvUpdate b) new -> chain self (map entry_light b)) /\
  (exists new,
     trace (after (_send_updates self fuel requests) w) = new ++ trace w /\
     forall b, In (EvUpdate b) new -> chain self (map entry_light b)).
Proof.
  set (T := fun (new : list event) (_ : list (Q * ref)) =>
              forall b, In (EvUpdate b) new -> chain self (map entry_light b)).
  split.
  - intro Hrun.
    destruct (since_after (_send_update_batch self run) w T T T
                (adjacency_flush self (trace w) run Hrun))
      as (new & Ht & HT).
    + intros b [].
    + auto.
    + exists new. auto.
  - destruct (since_after (_send_updates self fuel requests) w T T T)
      as (new & Ht & HT).
    + apply (send_updates_rule self (trace w) T T (chain self)).
      * auto.
      * intros run' Hrun'. apply adjacency_flush. exact Hrun'.
      * intros light. exact I.
      * intros seq light. apply chain_snoc.
      * unfold T. auto.
    + intros b [].
    + auto.
    + exists new. auto.
Qed.

(** ** Every evaluation is written *)

Lemma written_app n2 n1 : written (n2 ++ n1) = written n1 ++ written n2.
Proof.
  induction n2 as [|ev n2 IH]; simpl; [symmetry; apply app_nil_r|].
  destruct ev; rewrite IH; auto using app_assoc.
Qed.

Lemma results_app n2 n1 : results (n2 ++ n1) = results n1 ++ results n2.
Proof.
  induction n2 as [|ev n2 IH]; simpl; [symmetry; apply app_nil_r|].
  destruct ev as [? ? ? ?|? ? [[? ?] ?]|?]; rewrite IH; auto using app_assoc.
Qed.

Lemma results_lights tr : map entry_light (results tr) = evaluated tr.
Proof.
  induction tr as [|ev tr IH]; [reflexivity|].
  destruct ev as [? ? ? ?|l t [[b f] d]|?]; simpl; auto.
  rewrite map_app, IH. reflexivity.
Qed.

Lemma written_once_flush self base run :
  hoare (since base (fun new _ => concat (written new) = results new))
        (_send_update_batch self run)
        (fun _ => since base (fun new _ => concat (written new) = results new))
        (since base (fun _ _ => True)).
Proof.
  apply (flush_rule self base
           (fun new _ sbl _ _ => concat (written new) ++ sbl = results new)).
  - auto.
  - intros new q sbl common light rest t b f d evs HJ Hev Hcond.
    apply andb_prop in Hcond. destruct Hcond as [Heq _].
    apply Z.eqb_eq in Heq. rewrite Heq.
    rewrite written_app, results_app, (written_evaluation_events _ _ _ _ Hev),
      (results_evaluation_events _ _ _ _ _ _ Hev), app_nil_r, app_assoc, HJ.
    reflexivity.
  - intros new q sbl common light rest t b f d evs HJ Hev _.
    simpl. rewrite written_app, results_app,
      (written_evaluation_events _ _ _ _ Hev),
      (results_evaluation_events _ _ _ _ _ _ Hev), app_nil_r, concat_app.
    simpl. rewrite app_nil_r, HJ. reflexivity.
  - intros new q H. rewrite app_nil_r. exact H.
  - intros new q c H. rewrite app_nil_r in H. exact H.
  - intros new q e out c H. simpl. rewrite concat_app. simpl.
    rewrite app_nil_r. exact H.
  - auto.
Qed.

(** X2 (every evaluation is written once).  When the flush of a run, or
    any number of iterations of the update loop, returns, the batches
    handed to the write sink, put end to end, are the results of the
    evaluations made, in the order of the evaluations: each evaluation
    gives one entry [(light, brightness, fade_ms)], written once.  This
    holds for every [max_batch_size] and a sink that suspends the loop. *)
Theorem every_evaluation_is_written_once self fuel requests run w :
  (forall w',
     _send_update_batch self run w = (w', Ok tt) ->
     exists new,
       trace w' = new ++ trace w /\ concat (written new) = results new /\
       map entry_light (concat (written new)) = evaluated new) /\
  (forall w',
     _send_updates self fuel requests w = (w', Ok tt) ->
     exists new,
       trace w' = new ++ trace w /\ concat (written new) = results new /\
       map entry_light (concat (written new)) = evaluated new).
Proof.
  set (T := fun (new : list event) (_ : list (Q * ref)) =>
              concat (written new) = results new).
  set (E := fun (_ : list event) (_ : list (Q * ref)) => True).
  split; intros w' Hrun.
  - destruct (since_after_ok (_send_update_batch self run) w w' tt T T E
                (written_once_flush self (trace w) run) eq_refl Hrun)
      as (new & Ht & HT).
    exists new. split; [exact Ht|]. split; [exact HT|].
    rewrite HT. apply results_lights.
  - destruct (since_after_ok (_send_updates self fuel requests) w w' tt T T E)
      as (new & Ht & HT).
    + apply (send_updates_rule self (trace w) T E (fun _ => True)).
      * unfold E. auto.
      * intros run' _. apply written_once_flush.
      * auto.
      * auto.
      * unfold T. auto.
    + reflexivity.
    + exact Hrun.
    + exists new. split; [exact Ht|]. split; [exact HT|].
      rewrite HT. apply results_lights.
Qed.

Lemma every_evaluation_is_written_once_witness :
  (exists new,
     trace (after (_send_update_batch (bus 2) [1; 2; 3]) three_dirty)
     = new ++ trace three_dirty /\
     concat (written new) = results new /\
     map entry_light (concat (written new)) = evaluated new) /\
  (exists new,
     trace (after (_send_updates (bus 2) some_fuel [[]; []]) three_dirty)
     = new ++ trace three_dirty /\
     concat (written new) = results new /\
     map entry_light (concat (written new)) = evaluated new).
Proof.
  destruct (every_evaluation_is_written_once (bus 2) some_fuel [[]; []]
              [1; 2; 3] three_dirty) as [H1 H2].
  split; [apply H1|apply H2]; apply returns_after; vm_compute; reflexivity.
Defined.

(** ** Batches are closed for a reason *)

Lemma split_ok_app_l max bs1 : forall bs2,
  split_ok max (bs1 ++ bs2) -> split_ok max bs1.
Proof.
  induction bs1 as [|a bs1 IH]; intros bs2 H; [exact I|].
  destruct bs1 as [|b bs1]; [exact I|].
  simpl in H. destruct H as [Hab H]. split; [exact Hab|].
  apply (IH bs2). exact H.
Qed.

Lemma split_ok_change_last max bs : forall b b',
  (forall b1, closed_for_a_reason max b1 b -> closed_for_a_reason max b1 b') ->
  split_ok max (bs ++ [b]) -> split_ok max (bs ++ [b']).
Proof.
  induction bs as [|a bs IH]; intros b b' Hc H; [exact I|].
  destruct bs as [|a' bs].
  - simpl in *. destruct H as [H _]. auto.
  - change (closed_for_a_reason max a a' /\ split_ok max ((a' :: bs) ++ [b'])).
    change (closed_for_a_reason max a a' /\ split_ok max ((a' :: bs) ++ [b]))
      in H.
    destruct H as [Haa H]. split; [exact Haa|]. eapply IH; eassumption.
Qed.

Lemma split_ok_snoc max bs : forall b b',
  closed_for_a_reason max b b' ->
  split_ok max (bs ++ [b]) -> split_ok max ((bs ++ [b]) ++ [b']).
Proof.
  induction bs as [|a bs IH]; intros b b' Hc H.
  - simpl. auto.
  - destruct bs as [|a' bs].
    + simpl in *. destruct H as [H _]. auto.
    + change (closed_for_a_reason max a a' /\
              split_ok max (((a' :: bs) ++ [b]) ++ [b'])).
      change (closed_for_a_reason max a a' /\ split_ok max ((a' :: bs) ++ [b]))
        in H.
      destruct H as [Haa H]. split; [exact Haa|]. apply IH; assumption.
Qed.

Lemma closed_for_a_reason_grows max b1 b e :
  closed_for_a_reason max b1 b -> closed_for_a_reason max b1 (b ++ [e]).
Proof.
  intros [H|(e2 & rest & -> & H)]; [left; exact H|].
  right. exists e2, (rest ++ [e]). split; [reflexivity|exact H].
Qed.

Lemma split_flush self base run :
  hoare (since base (fun new _ => new = []))
        (_send_update_batch self run)
        (fun _ => since base
                    (fun new _ => split_ok (max_batch_size self) (written new)))
        (since base
           (fun new _ => split_ok (max_batch_size self) (written new))).
Proof.
  apply (flush_rule self base
           (fun new _ sbl common _ =>
              split_ok (max_batch_size self) (written new ++ [sbl]) /\
              match common with
              | None => sbl = []
              | Some c => Forall (fun e => entry_fade_ms e = c) sbl
              end)).
  - intros new q sbl c rem [H _]. eapply split_ok_app_l. exact H.
  - intros new q sbl common light rest t b f d evs [Hs Hc] Hev Hcond.
    rewrite written_app, (written_evaluation_events _ _ _ _ Hev), app_nil_r.
    split.
    + eapply split_ok_change_last; [|exact Hs].
      intros b1. apply closed_for_a_reason_grows.
    + apply Forall_app. split.
      * destruct common as [c|]; [exact Hc|subst sbl; constructor].
      * constructor; [reflexivity|constructor].
  - intros new q sbl common light rest t b f d evs [Hs Hc] Hev Hcond.
    simpl. rewrite written_app, (written_evaluation_events _ _ _ _ Hev),
      app_nil_r.
    split; [|constructor; [reflexivity|constructor]].
    apply split_ok_snoc; [|exact Hs].
    apply andb_false_iff in Hcond. destruct Hcond as [Hne|Hfull].
    + right. exists (light, b, f), []. split; [reflexivity|].
      intros e1 He1. destruct common as [c|].
      * rewrite Forall_forall in Hc. rewrite (Hc e1 He1).
        apply Z.eqb_neq. exact Hne.
      * subst sbl. destruct He1.
    + left. apply Z.ltb_ge. exact Hfull.
  - intros new q ->. simpl. auto.
  - intros new q c [H _]. eapply split_ok_app_l. exact H.
  - intros new q e out c [H _]. simpl. exact H.
  - auto.
Qed.

(** X3 (a batch is closed for a reason).  Of two batches that the flush of
    a run hands to the write sink one after the other, the first has
    [max_batch_size] entries or more, or the fade duration of its entries
    differs from that of the first entry of the second: the flush starts
    a new batch only when the batch is full or the fade duration changes.
    This holds whatever the sink does and however the flush ends. *)
Theorem batches_closed_for_a_reason self run w :
  exists new,
    trace (after (_send_update_batch self run) w) = new ++ trace w /\
    split_ok (max_batch_size self) (written new).
Proof.
  set (T0 := fun (new : list event) (_ : list (Q * ref)) => new = []).
  set (T := fun (new : list event) (_ : list (Q * ref)) =>
              split_ok (max_batch_size self) (written new)).
  destruct (since_after (_send_update_batch self run) w T0 T T
              (split_flush self (trace w) run)) as (new & Ht & HT).
  - reflexivity.
  - auto.
  - exists new. auto.
Qed.

Lemma written_In b tr : In b (written tr) <-> In (EvUpdate b) tr.
Proof.
  induction tr as [|ev tr IH]; simpl; [tauto|].
  destruct ev as [? ? ? ?|? ? ?|b'].
  - rewrite IH. split; [auto|]. intros [H|H]; [discriminate|exact H].
  - rewrite IH. split; [auto|]. intros [H|H]; [discriminate|exact H].
  - rewrite in_app_iff, IH. simpl. split.
    + intros [H|[->|[]]]; auto.
    + intros [H|H]; [injection H as ->; auto|auto].
Qed.

Lemma reported_results tr e : reported tr e -> In e (results tr).
Proof.
  intros (t & d & H). induction tr as [|ev tr IH]; [destruct H|].
  destruct H as [->|H].
  - simpl. apply in_or_app. right. left.
    destruct e as [[l b] f]. reflexivity.
  - destruct ev as [? ? ? ?|? ? [[? ?] ?]|?]; simpl; auto.
    apply in_or_app. left. auto.
Qed.

Lemma split_ok_middle max pre : forall b1 b2 post,
  split_ok max (pre ++ b1 :: b2 :: post) -> closed_for_a_reason max b1 b2.
Proof.
  induction pre as [|a pre IH]; intros b1 b2 post H.
  - apply H.
  - apply (IH b1 b2 post). destruct pre; simpl in H; apply H.
Qed.

(** X4 (full batches).  With [max_batch_size >= 1], when every evaluation
    made by the flush of a run reported the same fade duration, every
    batch handed to the sink but the last has exactly [max_batch_size]
    entries: the run is written in the fewest batches. *)
Theorem equal_fades_fill_batches self run w f :
  (1 <= max_batch_size self)%Z ->
  exists new,
    trace (after (_send_update_batch self run) w) = new ++ trace w /\
    ((forall e, In e (results new) -> entry_fade_ms e = f) ->
     forall pre b post,
       written new = pre ++ b :: post -> post <> [] ->
       Z.of_nat (length b) = max_batch_size self).
Proof.
  intro Hmax.
  destruct (send_update_batch_sink_calls_ok self run w) as (new & Ht & Hg).
  set (T0 := fun (new : list event) (_ : list (Q * ref)) => new = []).
  set (T := fun (new : list event) (_ : list (Q * ref)) =>
              split_ok (max_batch_size self) (written new)).
  destruct (since_after (_send_update_batch self run) w T0 T T
              (split_flush self (trace w) run) eq_refl
              (fun new q H => H)) as (new' & Ht' & Hs).
  assert (new' = new) by (eapply app_inv_tail; rewrite <- Ht'; exact Ht).
  subst new'. unfold T in Hs. clear T0 T Ht'.
  exists new. split; [exact Ht|].
  intros Hf pre b post Hw Hpost.
  assert (Hin : forall b', In b' (written new) ->
                  b' <> [] /\
                  (Z.of_nat (length b') <= max_batch_size self)%Z /\
                  forall e, In e b' -> entry_fade_ms e = f).
  { intros b' Hb'. apply written_In, in_split in Hb'.
    destruct Hb' as (newer & older & Heq).
    destruct (Hg newer b' older Heq) as (_ & Hr & Hb).
    destruct (Hb Hmax) as [Hne Hle]. split; [exact Hne|]. split; [exact Hle|].
    intros e He. apply Hf. rewrite Forall_forall in Hr.
    pose proof (reported_results _ _ (Hr e He)) as Hr'.
    rewrite Heq, results_app. apply in_or_app. left.
    simpl. exact Hr'. }
  destruct post as [|b2 post]; [congruence|].
  rewrite Hw in Hs. apply split_ok_middle in Hs.
  destruct (Hin b) as (Hne & Hle & Hfb).
  { rewrite Hw. apply in_or_app. right. left. reflexivity. }
  destruct Hs as [Hfull|(e2 & rest & -> & Hdiff)]; [lia|].
  exfalso. destruct b as [|e1 b]; [congruence|].
  apply (Hdiff e1 (or_introl eq_refl)).
  rewrite (Hfb e1 (or_introl eq_refl)).
  destruct (Hin (e2 :: rest)) as (_ & _ & Hf2).
  { rewrite Hw. apply in_or_app. right. right. left. reflexivity. }
  rewrite (Hf2 e2 (or_introl eq_refl)). reflexivity.
Qed.

Lemma equal_fades_fill_batches_witness :
  (1 <= max_batch_size (bus 2))%Z /\
  exists new,
    trace (after (_send_update_batch (bus 2) [1; 2; 3]) three_dirty)
    = new ++ trace three_dirty /\
    ((forall e, In e (results new) -> entry_fade_ms e = 0%Z) ->
     forall pre b post,
       written new = pre ++ b :: post -> post <> [] ->
       Z.of_nat (length b) = max_batch_size (bus 2)).
Proof.
  split; [simpl; lia|].
  apply (equal_fades_fill_batches (bus 2) [1; 2; 3] three_dirty 0%Z).
  simpl. lia.
Defined.

(** ** The schedule grows by the incomplete evaluations *)

Lemma schedule_flush self base q0 run :
  hoare (since base (fun new q => q = q0 ++ scheduled new))
        (_send_update_batch self run)
        (fun _ => since base (fun new q => q = q0 ++ scheduled new))
        (since base (fun new q => q = q0 ++ scheduled new)).
Proof.
  apply (flush_rule self base
           (fun new q _ _ _ => q = q0 ++ scheduled new)); auto.
  - intros new q sbl common light rest t b f d evs -> Hev _.
    rewrite scheduled_app, app_assoc. reflexivity.
  - intros new q sbl common light rest t b f d evs -> Hev _.
    simpl. rewrite scheduled_app, app_assoc. reflexivity.
Qed.

(** X5 (what is scheduled).  The flush of a run appends to the schedule one
    entry for each evaluation it made that reported the fade incomplete,
    due at the time given to the evaluation plus [fade_ms / 1000], in the
    order of the evaluations, and nothing else; an iteration of the loop
    leaves the entries that it did not promote, followed by those.  This
    holds whatever the sink does and however the computation ends. *)
Theorem schedule_grows_by_incomplete_evaluations self fuel run w :
  (exists new,
     trace (after (_send_update_batch self run) w) = new ++ trace w /\
     dirty_schedule (after (_send_update_batch self run) w)
     = dirty_schedule w ++ scheduled new) /\
  (exists j new,
     j <= length (dirty_schedule w) /\
     trace (after (_send_updates_iteration self fuel) w) = new ++ trace w /\
     dirty_schedule (after (_send_updates_iteration self fuel) w)
     = skipn j (dirty_schedule w) ++ scheduled new).
Proof.
  split.
  - set (T := fun (new : list event) (q : list (Q * ref)) =>
                q = dirty_schedule w ++ scheduled new).
    destruct (since_after (_send_update_batch self run) w T T T
                (schedule_flush self (trace w) (dirty_schedule w) run))
      as (new & Ht & HT).
    + unfold T. simpl. symmetry. apply app_nil_r.
    + auto.
    + exists new. auto.
  - destruct (promote_due_ok self (dirty_schedule w) w)
      as (w1 & j & Hprom & [B D Sc L Tr R R1 Du St]).
    assert (Hsched1 : dirty_schedule w1 = skipn j (dirty_schedule w))
      by (rewrite Sc; destruct j; reflexivity).
    set (T := fun (new : list event) (q : list (Q * ref)) =>
                q = skipn j (dirty_schedule w) ++ scheduled new).
    assert (Hwalk : since (trace w1) T
                      (after (sequential_lights <-
                                detect_runs self fuel 0 None [] ;;
                              (if negb (is_empty sequential_lights)
                               then _send_update_batch self sequential_lights
                               else ret tt) ;;
                              set_dirty_lights []) w1)).
    { apply (since_after _ w1 T T T).
      - apply (walk_rule self (trace w1) T T (fun _ => True)); auto.
        intros run' _. apply schedule_flush.
      - unfold T. simpl. rewrite Hsched1. symmetry. apply app_nil_r.
      - auto. }
    destruct Hwalk as (new & Ht & HT). exists j, new. split; [exact B|].
    assert (Hit : after (_send_updates_iteration self fuel) w
                  = after (sequential_lights <-
                             detect_runs self fuel 0 None [] ;;
                           (if negb (is_empty sequential_lights)
                            then _send_update_batch self sequential_lights
                            else ret tt) ;;
                           set_dirty_lights []) w1).
    { unfold after, _send_updates_iteration.
      unfold bind at 1. unfold get_dirty_schedule at 1. cbv iota beta.
      unfold bind at 1. cbv zeta. rewrite if_same. unfold ret at 1.
      cbv iota beta. unfold bind at 1. rewrite Hprom. cbv iota beta.
      unfold bind at 1. unfold get_dirty_lights at 1. cbv iota beta.
      unfold bind at 1. cbv zeta. rewrite if_same. unfold ret at 1.
      cbv iota beta. reflexivity. }
    rewrite Hit, Ht, Tr. split; [reflexivity|exact HT].
Qed.

(** ** Promotion *)

(** X6 (promotion moves the due head of the schedule).  The promotion loop
    never raises.  It moves a prefix of the schedule to the end of the
    dirty list, in the order of the schedule, and touches nothing else but
    the clock.  Each entry moved was due at the reading of the clock made
    for it, and the entry at which the loop stopped, if any, was not due
    at the reading made for it: no light is promoted before its time, and
    an entry behind one that is not due is not looked at. *)
Theorem promotion_moves_the_due_head self w :
  exists j w',
    promote_due self (dirty_schedule w) w = (w', Ok tt) /\
    j <= length (dirty_schedule w) /\
    dirty_lights w'
    = dirty_lights w ++ map snd (firstn j (dirty_schedule w)) /\
    dirty_schedule w' = skipn j (dirty_schedule w) /\
    lights w' = lights w /\ trace w' = trace w /\
    (forall i due light,
       i < j -> nth_error (dirty_schedule w) i = Some (due, light) ->
       (due <= clock self (clock_reads w + i))%Q) /\
    (forall due light,
       nth_error (dirty_schedule w) j = Some (due, light) ->
       ~ (due <= clock self (clock_reads w + j))%Q).
Proof.
  destruct (promote_due_ok self (dirty_schedule w) w)
    as (w' & j & Hprom & [B D Sc L Tr R R1 Du St]).
  exists j, w'. repeat (split; [assumption|]).
  split; [rewrite Sc; destruct j; reflexivity|]. auto.
Qed.

(** ** The cache of a light *)

Lemma evaluations_cached light cached ts :
  forall w,
    truthy (_last_brightness (lights w light)) = Some cached ->
    exists w',
      evaluations light ts w = (w', Ok (map (fun _ => (cached, 0%Z, true)) ts)) /\
      lights w' = lights w /\ dirty_lights w' = dirty_lights w /\
      dirty_schedule w' = dirty_schedule w /\
      callbacks_invoked (trace w') = callbacks_invoked (trace w) /\
      evaluated (trace w') = evaluated (trace w) ++ map (fun _ => light) ts.
Proof.
  induction ts as [|t ts IH]; intros w Hc.
  - exists w. simpl. rewrite app_nil_r. repeat split.
  - simpl evaluations. unfold bind at 1.
    rewrite (cached_evaluation light t w cached Hc). cbv iota beta.
    set (w1 := mkWorld (dirty_lights w) (dirty_schedule w) (lights w)
                       (clock_reads w) (sink_calls w)
                       (EvEvaluate light t (cached, 0%Z, true) :: trace w)).
    destruct (IH w1 Hc) as (w' & He & Hl & Hd & Hq & Hcb & Hev).
    unfold bind at 1. rewrite He. cbv iota beta. simpl in *.
    exists w'. split; [reflexivity|]. repeat (split; [assumption|]).
    rewrite Hev, <- app_assoc. reflexivity.
Qed.

(** X7 (a terminal brightness other than 0 is cached).  Once an evaluation
    of a light has reported completion with a brightness other than 0,
    every later evaluation of the light, as long as no [set_fade] is made on
    it, returns that brightness with fade duration 0 and completion, and
    does not call the callback; the lights, the dirty list and the schedule
    stay as they are. *)
Theorem nonzero_terminal_brightness_is_cached light t w w' brightness fade_ms
    ts :
  get_fade_and_brightness light t w = (w', Ok (brightness, fade_ms, true)) ->
  ~ (brightness == 0)%Q ->
  exists w'',
    evaluations light ts w'
    = (w'', Ok (map (fun _ => (brightness, 0%Z, true)) ts)) /\
    lights w'' = lights w' /\ dirty_lights w'' = dirty_lights w' /\
    dirty_schedule w'' = dirty_schedule w' /\
    callbacks_invoked (trace w'') = callbacks_invoked (trace w').
Proof.
  intros Hgfb Hnz.
  assert (Hc : truthy (_last_brightness (lights w' light)) = Some brightness).
  { eapply completion_caches; [exact Hgfb|].
    destruct (Qeq_bool brightness 0) eqn:E; [|reflexivity].
    apply Qeq_bool_iff in E. contradiction. }
  destruct (evaluations_cached light brightness ts w' Hc)
    as (w'' & He & Hl & Hd & Hq & Hcb & _).
  exists w''. auto.
Qed.

Lemma nonzero_terminal_brightness_is_cached_witness :
  exists w'',
    evaluations 1 [1; 2; 3]%Q (after (get_fade_and_brightness 1 0%Q) one_dirty)
    = (w'', Ok (map (fun _ => (1%Q, 0%Z, true)) [1; 2; 3]%Q)) /\
    lights w'' = lights (after (get_fade_and_brightness 1 0%Q) one_dirty) /\
    dirty_lights w''
    = dirty_lights (after (get_fade_and_brightness 1 0%Q) one_dirty) /\
    dirty_schedule w''
    = dirty_schedule (after (get_fade_and_brightness 1 0%Q) one_dirty) /\
    callbacks_invoked (trace w'')
    = callbacks_invoked
        (trace (after (get_fade_and_brightness 1 0%Q) one_dirty)).
Proof.
  apply (nonzero_terminal_brightness_is_cached 1 0%Q one_dirty
           (after (get_fade_and_brightness 1 0%Q) one_dirty) 1%Q 0%Z
           [1; 2; 3]%Q).
  - apply (returns_after (get_fade_and_brightness 1 0%Q) one_dirty).
    vm_compute. reflexivity.
  - intro H. discriminate H.
Defined.

(** ** Requests *)

Lemma do_requests_lights rs :
  forall w light,
    lights (after (do_requests rs) w) light
    = match last_request light rs with
      | Some cb => mkLight (get_max_fade_ms (lights w light)) (Some cb) None
      | None => lights w light
      end.
Proof.
  induction rs as [|[l cb] rs IH]; intros w light; [reflexivity|].
  unfold after in *. simpl do_requests. unfold bind at 1.
  destruct (set_fade_ok l cb w) as (w1 & Hsf & _).
  rewrite Hsf. cbv iota beta. rewrite IH. simpl last_request.
  assert (Hl : lights w1 light
               = if Nat.eqb l light
                 then mkLight (get_max_fade_ms (lights w light)) (Some cb) None
                 else lights w light).
  { unfold set_fade, bind, mark_dirty, get_dirty_lights, set_dirty_lights,
      load, store in Hsf. simpl in Hsf. injection Hsf as <-. simpl.
    rewrite Nat.eqb_refl. simpl. rewrite (Nat.eqb_sym light l).
    destruct (Nat.eqb l light) eqn:E; [|reflexivity].
    apply Nat.eqb_eq in E. subst l. reflexivity. }
  rewrite Hl. destruct (last_request light rs) as [cb'|].
  - destruct (Nat.eqb l light); reflexivity.
  - destruct (Nat.eqb l light); reflexivity.
Qed.

Lemma do_requests_dirty_lights rs :
  forall w, dirty_lights (after (do_requests rs) w)
            = dirty_lights w ++ map fst rs.
Proof.
  induction rs as [|[l cb] rs IH]; intros w.
  - simpl. symmetry. apply app_nil_r.
  - unfold after in *. simpl do_requests. unfold bind at 1.
    destruct (set_fade_ok l cb w) as (w1 & Hsf & _ & _ & _ & Hd & _).
    rewrite Hsf. cbv iota beta. rewrite IH, Hd, <- app_assoc. reflexivity.
Qed.

(** X8 (the latest request wins).  After any calls of [set_fade], every
    light asked is in the dirty list, once for each call, in the order of
    the calls, and the next evaluation of a light asked calls the callback
    of the last call made on it, with the maximal fade of the light and
    the time of the evaluation, and returns what it returns, whatever
    brightness was cached before: a request replaces the one before it. *)
Theorem latest_request_wins rs light cb t w :
  last_request light rs = Some cb ->
  let w1 := after (do_requests rs) w in
  let w2 := after (get_fade_and_brightness light t) w1 in
  dirty_lights w1 = dirty_lights w ++ map fst rs /\
  In light (dirty_lights w1) /\
  snd (get_fade_and_brightness light t w1)
  = Ok (cb (get_max_fade_ms (lights w light)) t) /\
  callbacks_invoked (trace w2) = callbacks_invoked (trace w) ++ [(light, t)].
Proof.
  intros Hlast w1 w2.
  assert (Hd : dirty_lights w1 = dirty_lights w ++ map fst rs)
    by apply do_requests_dirty_lights.
  split; [exact Hd|]. split.
  { rewrite Hd. apply in_or_app. right. clear - Hlast.
    induction rs as [|[l c] rs IH]; [discriminate|]. simpl in *.
    destruct (last_request light rs); [right; auto|].
    destruct (Nat.eqb l light) eqn:E; [|discriminate].
    left. apply Nat.eqb_eq. exact E. }
  assert (Hl : lights w1 light
               = mkLight (get_max_fade_ms (lights w light)) (Some cb) None).
  { unfold w1. rewrite do_requests_lights, Hlast. reflexivity. }
  assert (Ht : trace w1 = trace w).
  { unfold w1, after. apply (trace_stable_do_requests rs w). }
  unfold w2, after, get_fade_and_brightness, bind, load. rewrite Hl. simpl.
  destruct (cb (get_max_fade_ms (lights w light)) t) as [[b f] d].
  destruct d; simpl; rewrite Ht; auto.
Qed.

Lemma latest_request_wins_witness :
  let w1 := after (do_requests [(1, cb_const (1 # 4) 0 true);
                                (2, cb_const 1 500 false);
                                (1, cb_const (3 # 4) 500 false)]) one_dirty in
  let w2 := after (get_fade_and_brightness 1 5) w1 in
  dirty_lights w1 = dirty_lights one_dirty ++ [1; 2; 1] /\
  In 1 (dirty_lights w1) /\
  snd (get_fade_and_brightness 1 5 w1) = Ok (3 # 4, 500%Z, false) /\
  callbacks_invoked (trace w2)
  = callbacks_invoked (trace one_dirty) ++ [(1, 5%Q)].
Proof.
  apply (latest_request_wins
           [(1, cb_const (1 # 4) 0 true); (2, cb_const 1 500 false);
            (1, cb_const (3 # 4) 500 false)]
           1 (cb_const (3 # 4) 500 false) 5%Q one_dirty).
  reflexivity.
Defined.

(** ** The order of the evaluations *)

Section EvaluationOrder.

Variable self : PlatformBatchLightSystem.

Hypothesis sink_accepts : forall k b, update_callback self k b = Some [].



End EvaluationOrder.





(** ** Starting and stopping the loop *)

Lemma tasks_ok_start s : tasks_ok s -> tasks_ok (start s).
Proof.
  intros (Hslot & Hreq & Hnd). unfold start. repeat split; simpl.
  - injection H as <-. reflexivity.
  - injection H as <-. intro Hin. apply Hreq in Hin. lia.
  - intros task Hin. apply Hreq in Hin. lia.
  - exact Hnd.
Qed.

Lemma tasks_ok_stop s : tasks_ok s -> tasks_ok (stop s).
Proof.
  intros Hs. pose proof Hs as (Hslot & Hreq & Hnd). unfold stop.
  destruct (update_task s) as [task|] eqn:Hu; [|exact Hs].
  destruct (Hslot task eq_refl) as [Hlt Hnot].
  repeat split; simpl; try discriminate.
  - intros t [<-|Hin]; [lia|auto].
  - constructor; assumption.
Qed.

Lemma tasks_ok_lifecycle calls :
  forall s, tasks_ok s -> tasks_ok (lifecycle calls s).
Proof.
  induction calls as [|[|] calls IH]; intros s Hs; simpl; auto.
  - apply IH, tasks_ok_start, Hs.
  - apply IH, tasks_ok_stop, Hs.
Qed.

Lemma tasks_ok_no_task : tasks_ok no_task.
Proof.
  repeat split; simpl; try discriminate; try tauto. constructor.
Qed.

Lemma lifecycle_app calls1 :
  forall calls2 s,
    lifecycle (calls1 ++ calls2) s = lifecycle calls2 (lifecycle calls1 s).
Proof.
  induction calls1 as [|[|] calls1 IH]; intros calls2 s; simpl; auto.
Qed.

Lemma out_of_reach_start task s :
  out_of_reach task s -> out_of_reach task (start s).
Proof.
  intros (Hlt & Hne & Hnot). unfold out_of_reach, start. simpl.
  split; [lia|]. split; [|exact Hnot]. intros [= H]. lia.
Qed.

Lemma out_of_reach_stop task s :
  out_of_reach task s -> out_of_reach task (stop s).
Proof.
  intros Hs. pose proof Hs as (Hlt & Hne & Hnot). unfold stop.
  destruct (update_task s) as [u|] eqn:Hu; [|exact Hs].
  unfold out_of_reach. simpl. split; [exact Hlt|]. split; [discriminate|].
  intros [->|Hin]; [apply Hne; reflexivity|auto].
Qed.

Lemma out_of_reach_lifecycle task calls :
  forall s, out_of_reach task s -> out_of_reach task (lifecycle calls s).
Proof.
  induction calls as [|[|] calls IH]; intros s Hs; simpl; auto.
  - apply IH, out_of_reach_start, Hs.
  - apply IH, out_of_reach_stop, Hs.
Qed.

(** X11 (a second start leaves the first task running).  [start] does not
    look at the slot: whatever calls of [start] and [stop] were made
    before, when [start] is called twice in a row the task created by the
    first of the two calls is never cancelled, whatever calls of [start] and
    [stop] follow. *)
Theorem start_twice_leaks_a_task calls1 calls2 :
  let task := tasks_created (lifecycle calls1 no_task) in
  let s := lifecycle (calls1 ++ CallStart :: CallStart :: calls2) no_task in
  task < tasks_created s /\
  update_task s <> Some task /\
  ~ In task (cancel_requests s).
Proof.
  intros task s. unfold s. rewrite lifecycle_app. simpl.
  apply out_of_reach_lifecycle.
  destruct (tasks_ok_lifecycle calls1 no_task tasks_ok_no_task)
    as (_ & Hreq & _).
  unfold out_of_reach, start. simpl. fold task.
  split; [lia|]. split.
  - intros [= H]. lia.
  - intro Hin. apply Hreq in Hin. fold task in Hin. lia.
Qed.

(** X12 (what [stop] cancels).  After any calls of [start] and [stop] on a
    new system: no task was cancelled twice; the task in the slot, if
    any, is the last one created and is not cancelled; [stop] then empties
    the slot and a second [stop] does nothing; and [stop] after [start]
    cancels the task just created and no other. *)
Theorem stop_cancels_the_task_in_the_slot calls :
  let s := lifecycle calls no_task in
  NoDup (cancel_requests s) /\
  (forall task,
     update_task s = Some task ->
     S task = tasks_created s /\ ~ In task (cancel_requests s)) /\
  update_task (stop s) = None /\
  stop (stop s) = stop s /\
  cancel_requests (stop (start s)) = tasks_created s :: cancel_requests s.
Proof.
  intros s.
  destruct (tasks_ok_lifecycle calls no_task tasks_ok_no_task)
    as (Hslot & Hreq & Hnd). fold s in Hslot, Hreq, Hnd.
  split; [exact Hnd|]. split; [|split; [|split]].
  - exact Hslot.
  - unfold stop. destruct (update_task s) eqn:Hu; [reflexivity|exact Hu].
  - unfold stop. destruct (update_task s) eqn:Hu; simpl; [reflexivity|].
    rewrite Hu. reflexivity.
  - reflexivity.
Qed.

(** ** What an evaluation leaves alone *)

(** X13 (an evaluation changes the cache of its light only).  Whatever it
    returns or raises, an evaluation of a light leaves the dirty list and
    the schedule as they are, makes no reading of the clock and no call of
    the sink, leaves every other light as it is, and keeps the callback and
    the maximal fade of the light: a request is never dropped or replaced
    by an evaluation, only by [set_fade]. *)
Theorem evaluation_changes_the_cache_only light current_time w :
  let w' := after (get_fade_and_brightness light current_time) w in
  dirty_lights w' = dirty_lights w /\
  dirty_schedule w' = dirty_schedule w /\
  clock_reads w' = clock_reads w /\
  sink_calls w' = sink_calls w /\
  (forall other, other <> light -> lights w' other = lights w other) /\
  _callback (lights w' light) = _callback (lights w light) /\
  get_max_fade_ms (lights w' light) = get_max_fade_ms (lights w light).
Proof.
  unfold after, get_fade_and_brightness, bind, load.
  destruct (truthy (_last_brightness (lights w light))) as [cached|];
    [simpl; repeat split; auto|].
  destruct (_callback (lights w light)) as [cb|] eqn:Hcb;
    [|simpl; repeat split; auto].
  simpl. destruct (cb (get_max_fade_ms (lights w light)) current_time)
    as [[b f] d].
  destruct d; simpl; repeat split; auto.
  - intros other Hne. destruct (Nat.eqb other light) eqn:E; [|reflexivity].
    apply Nat.eqb_eq in E. contradiction.
  - rewrite Nat.eqb_refl. reflexivity.
  - rewrite Nat.eqb_refl. reflexivity.
Qed.

(** ** A batch size that admits no entry *)

Lemma zero_batch_size_flush self base run :
  (max_batch_size self <= 0)%Z ->
  hoare (since base (fun new _ => new = []))
        (_send_update_batch self run)
        (fun _ =>
           since base
             (fun new _ =>
                evaluated new = run /\
                written new
                = match run with
                  | [] => []
                  | _ => [] :: map (fun e => [e]) (results new)
                  end))
        (since base (fun _ _ => True)).
Proof.
  intro Hmax.
  apply (flush_rule self base
           (fun new _ sbl _ rem =>
              evaluated new ++ rem = run /\
              written new ++ [sbl] = [] :: map (fun e => [e]) (results new))).
  - auto.
  - intros new q sbl common light rest t b f d evs _ _ Hcond.
    apply andb_prop in Hcond. destruct Hcond as [_ Hlt].
    apply Z.ltb_lt in Hlt. lia.
  - intros new q sbl common light rest t b f d evs [Hrun Hw] Hev _.
    simpl. rewrite evaluated_app, written_app, results_app,
      (evaluated_evaluation_events _ _ _ _ Hev),
      (written_evaluation_events _ _ _ _ Hev),
      (results_evaluation_events _ _ _ _ _ _ Hev), app_nil_r, Hw, map_app,
      <- app_assoc.
    split; [exact Hrun|reflexivity].
  - intros new q ->. auto.
  - intros new q c [Hrun Hw]. rewrite app_nil_r in Hrun.
    split; [exact Hrun|].
    assert (Hnil : results new = []).
    { destruct (results new) as [|e0 r]; [reflexivity|].
      destruct (@exists_last _ (e0 :: r)) as (r' & e' & Heq); [discriminate|].
      rewrite Heq, map_app in Hw. simpl in Hw.
      change ([] :: map (fun e => [e]) r' ++ [[e']])
        with (([] :: map (fun e => [e]) r') ++ [[e']]) in Hw.
      apply app_inj_tail in Hw. destruct Hw as [_ Hw]. discriminate. }
    rewrite Hnil in Hw. simpl in Hw.
    apply (app_inj_tail (written new) [] [] []) in Hw.
    destruct Hw as [Hw _]. rewrite Hw.
    rewrite <- Hrun, <- results_lights, Hnil. reflexivity.
  - intros new q e out c [Hrun Hw]. rewrite app_nil_r in Hrun. simpl.
    split; [exact Hrun|]. rewrite Hw.
    destruct run as [|l run']; [|reflexivity].
    rewrite <- results_lights in Hrun.
    destruct (results new); [|discriminate]. simpl in Hw.
    apply (app_inj_tail (written new) [] (e :: out) []) in Hw.
    destruct Hw as [_ Hw]. discriminate.
  - auto.
Qed.

(** X15 (a batch size of 0 or less).  With [max_batch_size <= 0], which
    the constructor accepts, no entry can join a batch.  The flush of a
    run that is not empty, when it returns, has called the write sink
    first with the empty list, then once for each light of the run, in
    order, with the entry of that light alone. *)
Theorem zero_batch_size_writes_an_empty_batch self run w w' :
  (max_batch_size self <= 0)%Z ->
  _send_update_batch self run w = (w', Ok tt) ->
  exists new,
    trace w' = new ++ trace w /\
    map entry_light (results new) = run /\
    written new
    = match run with
      | [] => []
      | _ => [] :: map (fun e => [e]) (results new)
      end.
Proof.
  intros Hmax Hrun.
  set (T0 := fun (new : list event) (_ : list (Q * ref)) => new = []).
  set (T1 := fun (new : list event) (_ : list (Q * ref)) =>
               evaluated new = run /\
               written new
               = match run with
                 | [] => []
                 | _ => [] :: map (fun e => [e]) (results new)
                 end).
  set (E := fun (_ : list event) (_ : list (Q * ref)) => True).
  destruct (since_after_ok (_send_update_batch self run) w w' tt T0 T1 E
              (zero_batch_size_flush self (trace w) run Hmax) eq_refl Hrun)
    as (new & Ht & Hev & Hw).
  exists new. split; [exact Ht|]. split; [|exact Hw].
  rewrite results_lights. exact Hev.
Qed.

Lemma zero_batch_size_writes_an_empty_batch_witness :
  exists new,
    trace (after (_send_update_batch (bus 0) [1; 2; 3]) three_dirty)
    = new ++ trace three_dirty /\
    map entry_light (results new) = [1; 2; 3] /\
    written new = [] :: map (fun e => [e]) (results new).
Proof.
  apply (zero_batch_size_writes_an_empty_batch (bus 0) [1; 2; 3] three_dirty
           (after (_send_update_batch (bus 0) [1; 2; 3]) three_dirty)).
  - simpl. lia.
  - apply returns_after. vm_compute. reflexivity.
Defined.
